(** * The recurring-job scheduler (cycle): prepare, run, sequence

    A shallow embedding of the scheduler of the SDK (the [cycle] section of
    the sources: [prepare], [run], [sequence]) together with the part of the
    JavaScript runtime it is written against: promises with their reaction
    lists, the microtask queue, and the timer table behind [setTimeout],
    [setInterval], [clearTimeout] and [clearInterval].

    Conventions of the model.
    - Durations and instants are whole milliseconds ([nat]).
    - A [DoFn] that the scheduler receives from its caller is an external
      asynchronous function: calling it returns a promise and never throws
      synchronously; what the promise does is given by the function's
      behaviour ([fn_beh]) at its n-th call.  External tasks do not write
      job objects.
    - Lifecycle callbacks do not throw.  They receive the job object itself
      under the static type [JobInfo]; what they write through that type is
      written to the job.
    - Closures that the source stores (timer callbacks, promise handlers,
      the rest of an [async] body after an [await]) are first-order values
      ([Closure], [Kont]) interpreted by [apply] and [resume]. *)

From stdpp Require Import base list strings.
From Stdlib Require Import Lia.

(** ** Data model *)

(** [type Status = 'error' | 'pending' | 'running' | undefined] *)
Inductive Status := error | pending | running | undefined.

Global Instance Status_eq_dec : EqDecision Status.
Proof. solve_decision. Defined.

(** The errors the scheduler constructs ([jobName], [status], [message]),
    and the failures of task bodies, which it does not look into. *)
Inductive Err :=
  | PreviousExecutionNotCompleteError (jobName : string) (status : Status) (message : string)
  | TimeoutError (jobName : string) (status : Status) (message : string)
  | TaskError (message : string).

Global Instance Err_eq_dec : EqDecision Err.
Proof. solve_decision. Defined.

(** How a promise of type [Promise<void>] is settled. *)
Inductive Result := Fulfilled | Rejected (e : Err).

Global Instance Result_eq_dec : EqDecision Result.
Proof. solve_decision. Defined.

(** What the promise returned by one call of an external task does: it is
    settled [after] milliseconds (0: it is already settled when the call
    returns), or it never is. *)
Inductive Outcome := Settles (after : nat) (r : Result) | Never.

(** [type DoFn = () => Promise<void>], for the functions supplied by the
    caller: [fn_id] is the identity of the function value, [fn_beh k] what
    its call number [k] does. *)
Record DoFn := { fn_id : nat; fn_beh : nat -> Outcome }.

(** [type Job] *)
Record Job := {
  do : DoFn;
  name : string;
  interval : nat;
  defer : option nat;
  status : Status;
  timeout : option nat
}.

(** [type JobInfo = Pick<Job, 'name' | 'status'>] *)
Record JobInfo := { info_name : string; info_status : Status }.

(** The view of a job at type [JobInfo], and a job after the fields of the
    view have been written back. *)
Definition info_of (j : Job) : JobInfo :=
  {| info_name := name j; info_status := status j |}.

Definition with_info (j : Job) (i : JobInfo) : Job :=
  {| do := do j; name := info_name i; interval := interval j;
     defer := defer j; status := info_status i; timeout := timeout j |}.

Definition with_status (j : Job) (s : Status) : Job :=
  {| do := do j; name := name j; interval := interval j;
     defer := defer j; status := s; timeout := timeout j |}.

(** [type InfoFn = (job: JobInfo) => void] and
    [type ErrorFn = (job: JobInfo, err: unknown) => void]: the result is the
    view as the callback leaves it. *)
Definition InfoFn := JobInfo -> JobInfo.
Definition ErrorFn := JobInfo -> Err -> JobInfo.

(** JavaScript truthiness of an optional number: [undefined] and [0] are
    falsy. *)
Definition truthy (n : option nat) : option nat :=
  match n with
  | Some (S m) => Some (S m)
  | _ => None
  end.

(** The closure returned by [prepare]: the job it closes over, [doJob] as
    read when [prepare] was called, and the callbacks. *)
Record Runnable := {
  r_job : nat;
  r_doJob : DoFn;
  r_before : option InfoFn;
  r_after : option InfoFn;
  r_onError : option ErrorFn
}.

(** ** Runtime: closures, promises, timers *)

(** The function values the scheduler hands to the runtime. *)
Inductive Closure :=
  | TimeoutRej (job P : nat)   (* () => rej(new TimeoutError(job.name, job.status, 'timed out')) *)
  | Res (P : nat)              (* res *)
  | ClearT (t : nat)           (* () => { if (t) clearTimeout(t) } *)
  | StartJob (job R : nat)     (* startJob *)
  | Tick (job R : nat)         (* tick *)
  | FailFn (R : nat)           (* fail *)
  | Settle (p : nat) (r : Result).  (* the environment settles the promise of an external task *)

(** The rest of an [async] body after an [await]. *)
Inductive Kont :=
  | AfterDo (r : Runnable) (out : nat)            (* prepare: after the awaited execution *)
  | NextFn (doFns : list DoFn) (i out : nat).     (* sequence: after [await doFns[i - 1]()] *)

(** A reaction registered on a promise; [derived] is the promise returned
    by [then], [catch] or [finally]. *)
Inductive Reaction :=
  | OnThen (f : Closure) (derived : nat)
  | OnCatch (f : Closure) (derived : nat)
  | OnFinally (f : Closure) (derived : nat)
  | OnAwait (k : Kont).

Record Cell := { p_state : option Result; p_reactions : list Reaction }.

Inductive TimerKind := Once | Every (period : nat).

Record Timer := {
  t_due : nat;
  t_kind : TimerKind;
  t_active : bool;
  t_fn : Closure
}.

(** What the scheduler does, in order, each stamped with the instant. *)
Inductive Event :=
  | EvBefore (i : JobInfo)
  | EvAfter (i : JobInfo)
  | EvOnError (i : JobInfo) (e : Err)
  | EvStatus (job : nat) (s : Status)
  | EvNew (e : Err)
  | EvCall (fn k : nat)
  | EvArm (job t : nat)
  | EvTick (job : nat)
  | EvFail (e : Err).

Record World := {
  now : nat;
  heap : list Job;
  promises : list Cell;
  timers : list Timer;
  micro : list (Reaction * Result);
  calls : nat -> nat;
  timeouts : list nat;
  log : list (nat * Event)
}.

Definition init_world (jobs : list Job) : World :=
  {| now := 0; heap := jobs; promises := []; timers := []; micro := [];
     calls := fun _ => 0; timeouts := []; log := [] |}.

(** A state monad over the world. *)
Definition M (A : Type) : Type := World -> A * World.

Definition ret {A} (a : A) : M A := fun w => (a, w).

Definition bind {A B} (m : M A) (k : A -> M B) : M B :=
  fun w => let (a, w') := m w in k a w'.

Notation "'let*' x := m 'in' k" := (bind m (fun x => k))
  (at level 10, x name, m at level 100, k at level 200).
Notation "m ;; k" := (bind m (fun _ => k))
  (at level 100, k at level 200, right associativity).

Definition exec {A} (m : M A) (w : World) : World := (m w).2.

Definition get {A} (f : World -> A) : M A := fun w => (f w, w).

Definition set_heap (h : list Job) : M unit := fun w =>
  (tt, {| now := now w; heap := h; promises := promises w; timers := timers w;
          micro := micro w; calls := calls w; timeouts := timeouts w; log := log w |}).

Definition set_promises (ps : list Cell) : M unit := fun w =>
  (tt, {| now := now w; heap := heap w; promises := ps; timers := timers w;
          micro := micro w; calls := calls w; timeouts := timeouts w; log := log w |}).

Definition set_timers (ts : list Timer) : M unit := fun w =>
  (tt, {| now := now w; heap := heap w; promises := promises w; timers := ts;
          micro := micro w; calls := calls w; timeouts := timeouts w; log := log w |}).

Definition set_micro (q : list (Reaction * Result)) : M unit := fun w =>
  (tt, {| now := now w; heap := heap w; promises := promises w; timers := timers w;
          micro := q; calls := calls w; timeouts := timeouts w; log := log w |}).

Definition set_calls (c : nat -> nat) : M unit := fun w =>
  (tt, {| now := now w; heap := heap w; promises := promises w; timers := timers w;
          micro := micro w; calls := c; timeouts := timeouts w; log := log w |}).

Definition set_timeouts (l : list nat) : M unit := fun w =>
  (tt, {| now := now w; heap := heap w; promises := promises w; timers := timers w;
          micro := micro w; calls := calls w; timeouts := l; log := log w |}).

Definition set_now (t : nat) : M unit := fun w =>
  (tt, {| now := t; heap := heap w; promises := promises w; timers := timers w;
          micro := micro w; calls := calls w; timeouts := timeouts w; log := log w |}).

Definition emit (e : Event) : M unit := fun w =>
  (tt, {| now := now w; heap := heap w; promises := promises w; timers := timers w;
          micro := micro w; calls := calls w; timeouts := timeouts w;
          log := log w ++ [(now w, e)] |}).

(** *** Job objects *)

(** The value a reference that designates no object reads as; references
    held by the scheduler always designate a job. *)
Definition no_job : Job :=
  {| do := {| fn_id := 0; fn_beh := fun _ => Never |}; name := ""%string;
     interval := 0; defer := None; status := undefined; timeout := None |}.

Definition deref (a : nat) : M Job :=
  get (fun w => default no_job (heap w !! a)).

Definition assign (a : nat) (j : Job) : M unit :=
  let* h := get heap in set_heap (<[a := j]> h).

Definition alloc (j : Job) : M nat :=
  let* h := get heap in set_heap (h ++ [j]) ;; ret (length h).

(** [job.status = s] *)
Definition set_status (a : nat) (s : Status) : M unit :=
  let* j := deref a in
  emit (EvStatus a s) ;;
  assign a (with_status j s).

(** [f && f(job)] for an [InfoFn], and [onError(job, err)]. *)
Definition call_info (ev : JobInfo -> Event) (f : option InfoFn) (a : nat) : M unit :=
  match f with
  | Some g =>
      let* j := deref a in
      emit (ev (info_of j)) ;;
      assign a (with_info j (g (info_of j)))
  | None => ret tt
  end.

Definition call_error (g : ErrorFn) (a : nat) (e : Err) : M unit :=
  let* j := deref a in
  emit (EvOnError (info_of j) e) ;;
  assign a (with_info j (g (info_of j) e)).

(** *** Promises *)

Definition new_promise (st : option Result) : M nat :=
  let* ps := get promises in
  set_promises (ps ++ [{| p_state := st; p_reactions := [] |}]) ;;
  ret (length ps).

(** Resolving or rejecting a promise: it has an effect only while the
    promise is pending, and then queues its reactions as microtasks. *)
Definition settle (p : nat) (r : Result) : M unit :=
  let* ps := get promises in
  match ps !! p with
  | Some {| p_state := None; p_reactions := rs |} =>
      set_promises (<[p := {| p_state := Some r; p_reactions := [] |}]> ps) ;;
      let* q := get micro in
      set_micro (q ++ map (fun rx => (rx, r)) rs)
  | _ => ret tt
  end.

Definition subscribe (p : nat) (rx : Reaction) : M unit :=
  let* ps := get promises in
  match ps !! p with
  | Some c =>
      match p_state c with
      | None =>
          set_promises (<[p := {| p_state := None; p_reactions := p_reactions c ++ [rx] |}]> ps)
      | Some r => let* q := get micro in set_micro (q ++ [(rx, r)])
      end
  | None => ret tt
  end.

(** [p.then(f)], [p.catch(f)], [p.finally(f)], [await p]. *)
Definition then_ (p : nat) (f : Closure) : M nat :=
  let* d := new_promise None in subscribe p (OnThen f d) ;; ret d.

Definition catch_ (p : nat) (f : Closure) : M nat :=
  let* d := new_promise None in subscribe p (OnCatch f d) ;; ret d.

Definition finally_ (p : nat) (f : Closure) : M nat :=
  let* d := new_promise None in subscribe p (OnFinally f d) ;; ret d.

Definition await (p : nat) (k : Kont) : M unit := subscribe p (OnAwait k).

(** *** Timers *)

(** Node's timers take a delay below 1 as 1. *)
Definition timer_delay (d : nat) : nat := Nat.max 1 d.

Definition add_timer (t : Timer) : M nat :=
  let* ts := get timers in set_timers (ts ++ [t]) ;; ret (length ts).

Definition setTimeout (f : Closure) (d : nat) : M nat :=
  let* t := get now in
  add_timer {| t_due := t + timer_delay d; t_kind := Once; t_active := true; t_fn := f |}.

Definition setInterval (f : Closure) (d : nat) : M nat :=
  let* t := get now in
  add_timer {| t_due := t + timer_delay d; t_kind := Every (timer_delay d);
               t_active := true; t_fn := f |}.

Definition stopped (t : Timer) : Timer :=
  {| t_due := t_due t; t_kind := t_kind t; t_active := false; t_fn := t_fn t |}.

(** [clearTimeout(t)] and [clearInterval(t)] (the same operation in Node). *)
Definition clearTimer (t : nat) : M unit :=
  let* ts := get timers in
  match ts !! t with
  | Some tm => set_timers (<[t := stopped tm]> ts)
  | None => ret tt
  end.

(** *** Calling an external task *)

(** The call counts after one more call of [f]. *)
Definition called (f : DoFn) (c : nat -> nat) : nat -> nat :=
  fun i => if (i =? fn_id f)%nat then S (c (fn_id f)) else c i.

Definition call_task (f : DoFn) : M nat :=
  let* c := get calls in
  let k := c (fn_id f) in
  set_calls (called f c) ;;
  emit (EvCall (fn_id f) k) ;;
  match fn_beh f k with
  | Settles 0 r => new_promise (Some r)
  | Settles (S d) r =>
      let* p := new_promise None in
      let* t := get now in
      add_timer {| t_due := t + S d; t_kind := Once; t_active := true; t_fn := Settle p r |} ;;
      ret p
  | Never => new_promise None
  end.

(** ** The scheduler *)

(** *** prepare *)

(** [prepare(job, before, after, onError)]: [const doJob = job.do] is read
    here, once. *)
Definition prepare (job : nat) (before after : option InfoFn)
    (onError : option ErrorFn) : M Runnable :=
  let* j := deref job in
  ret {| r_job := job; r_doJob := do j; r_before := before;
         r_after := after; r_onError := onError |}.

(** One call of the runnable, up to its first [await]; the result is the
    promise the call returns. *)
Definition invoke (r : Runnable) : M nat :=
  let job := r_job r in
  let* out := new_promise None in
  let* j := deref job in
  (if decide (status j = running) then
     let err := PreviousExecutionNotCompleteError (name j) (status j) ""%string in
     emit (EvNew err) ;;
     match r_onError r with
     | Some onError => call_error onError job err ;; settle out Fulfilled
     | None => settle out (Rejected err)
     end
   else
     call_info EvBefore (r_before r) job ;;
     set_status job running ;;
     let* j := deref job in
     match truthy (timeout j) with
     | Some ms =>
         let* P := new_promise None in
         let* t := setTimeout (TimeoutRej job P) ms in
         let* p1 := call_task (r_doJob r) in
         let* p2 := then_ p1 (Res P) in
         let* _ := finally_ p2 (ClearT t) in
         await P (AfterDo r out)
     | None =>
         let* p := call_task (r_doJob r) in
         await p (AfterDo r out)
     end) ;;
  ret out.

(** The rest of the [try] block, and the [catch] block. *)
Definition after_do (r : Runnable) (out : nat) (res : Result) : M unit :=
  let job := r_job r in
  match res with
  | Fulfilled =>
      set_status job pending ;;
      call_info EvAfter (r_after r) job ;;
      settle out Fulfilled
  | Rejected err =>
      set_status job error ;;
      match r_onError r with
      | Some onError => call_error onError job err ;; settle out Fulfilled
      | None => settle out (Rejected err)
      end
  end.

(** *** sequence *)

(** The loop of [sequence] from index [i], up to its next [await]. *)
Definition sequence_from (doFns : list DoFn) (i out : nat) : M unit :=
  match doFns !! i with
  | Some f => let* p := call_task f in await p (NextFn doFns (S i) out)
  | None => settle out Fulfilled
  end.

(** One call of the runnable returned by [sequence(...doFns)]. *)
Definition sequence (doFns : list DoFn) : M nat :=
  let* out := new_promise None in
  sequence_from doFns 0 out ;;
  ret out.

Definition resume (k : Kont) (res : Result) : M unit :=
  match k with
  | AfterDo r out => after_do r out res
  | NextFn doFns i out =>
      match res with
      | Fulfilled => sequence_from doFns i out
      | Rejected err => settle out (Rejected err)
      end
  end.

(** *** run *)

Fixpoint for_each {A} (l : list A) (f : A -> M unit) : M unit :=
  match l with
  | [] => ret tt
  | x :: l' => f x ;; for_each l' f
  end.

Fixpoint map_M {A B} (f : A -> M B) (l : list A) : M (list B) :=
  match l with
  | [] => ret []
  | x :: l' => let* y := f x in let* ys := map_M f l' in ret (y :: ys)
  end.

(** [const tick = () => job.do().catch(fail)] *)
Definition tick (job R : nat) : M unit :=
  let* j := deref job in
  emit (EvTick job) ;;
  let* p := call_task (do j) in
  let* _ := catch_ p (FailFn R) in
  ret tt.

Definition startJob (job R : nat) : M unit :=
  let* j := deref job in
  let* t := setInterval (Tick job R) (interval j) in
  emit (EvArm job t) ;;
  let* ts := get timeouts in
  set_timeouts (ts ++ [t]) ;;
  tick job R.

(** [const fail = (err) => { timeouts.forEach(clearInterval); reject(err) }] *)
Definition fail (R : nat) (err : Err) : M unit :=
  emit (EvFail err) ;;
  let* ts := get timeouts in
  for_each ts clearTimer ;;
  settle R (Rejected err).

(** The body of [.map(job => ({ ...job, status: 'pending' }))]: a new
    object with the fields of the job and [status: 'pending']. *)
Definition copy (a : nat) : M nat :=
  let* j := deref a in alloc (with_status j pending).

(** The body of the [forEach]. *)
Definition schedule (R job : nat) : M unit :=
  let* j := deref job in
  match truthy (defer j) with
  | Some ms => let* _ := setTimeout (StartJob job R) ms in ret tt
  | None => startJob job R
  end.

(** [run(jobs)]: the executor of the returned promise. [jobs] are the
    references the caller's array holds. *)
Definition run (jobs : list nat) : M nat :=
  let* R := new_promise None in
  set_timeouts [] ;;
  let* copies := map_M copy jobs in
  for_each copies (schedule R) ;;
  ret R.

(** ** The event loop *)

(** Calling a stored function value; [err] is the rejection reason when the
    function is called as a [catch] handler. *)
Definition apply (f : Closure) (err : option Err) : M unit :=
  match f with
  | TimeoutRej job P =>
      let* j := deref job in
      let e := TimeoutError (name j) (status j) "timed out"%string in
      emit (EvNew e) ;;
      settle P (Rejected e)
  | Res P => settle P Fulfilled
  | ClearT t => clearTimer t
  | StartJob job R => startJob job R
  | Tick job R => tick job R
  | FailFn R =>
      match err with
      | Some e => fail R e
      | None => ret tt
      end
  | Settle p r => settle p r
  end.

(** A promise reaction job. *)
Definition react (rx : Reaction) (r : Result) : M unit :=
  match rx with
  | OnThen f d =>
      match r with
      | Fulfilled => apply f None ;; settle d Fulfilled
      | Rejected e => settle d (Rejected e)
      end
  | OnCatch f d =>
      match r with
      | Fulfilled => settle d Fulfilled
      | Rejected e => apply f (Some e) ;; settle d Fulfilled
      end
  | OnFinally f d => apply f None ;; settle d r
  | OnAwait k => resume k r
  end.

(** The active timer that is due first; among timers due at the same
    instant, the one created first. *)
Fixpoint earliest (ts : list Timer) (i : nat) : option (nat * Timer) :=
  match ts with
  | [] => None
  | t :: ts' =>
      let rest := earliest ts' (S i) in
      if t_active t then
        match rest with
        | Some (j, u) => if t_due t <=? t_due u then Some (i, t) else Some (j, u)
        | None => Some (i, t)
        end
      else rest
  end.

Definition rearmed (t : Timer) : Timer :=
  match t_kind t with
  | Once => stopped t
  | Every p =>
      {| t_due := t_due t + p; t_kind := t_kind t; t_active := true; t_fn := t_fn t |}
  end.

Definition fire (i : nat) (t : Timer) : M unit :=
  let* n := get now in
  set_now (Nat.max n (t_due t)) ;;
  let* ts := get timers in
  set_timers (<[i := rearmed t]> ts) ;;
  apply (t_fn t) None.

(** One turn of the loop: the next microtask if there is one, otherwise the
    next timer; a world with neither stays as it is. *)
Definition step (w : World) : World :=
  match micro w with
  | (rx, r) :: q => exec (set_micro q ;; react rx r) w
  | [] =>
      match earliest (timers w) 0 with
      | Some (i, t) => exec (fire i t) w
      | None => w
      end
  end.

Definition steps (n : nat) (w : World) : World := Nat.iter n step w.

(** The state of a promise. *)
Definition state_of (p : nat) (w : World) : option (option Result) :=
  p_state <$> promises w !! p.

(** A world with no microtask and no active timer. *)
Definition idle (w : World) : Prop :=
  micro w = [] /\ Forall (fun t => t_active t = false) (timers w).

(** * The vocabulary of the statements *)

(** ** Statements about prepare *)

Definition boom : Err := TaskError "boom"%string.

(** A job with [timeout: 50] whose task rejects after 10 ms. *)
Definition guarded_job : Job :=
  {| do := {| fn_id := 0; fn_beh := fun _ => Settles 10 (Rejected boom) |};
     name := "guarded"%string; interval := 1000; defer := None;
     status := undefined; timeout := Some 50 |}.

Definition guarded_call (onError : option ErrorFn) : nat * World :=
  (let* r := prepare 0 None None onError in invoke r) (init_world [guarded_job]).

Definition opt_event {A} (f : option A) (e : Event) (t : nat) : list (nat * Event) :=
  match f with Some _ => [(t, e)] | None => [] end.

(** The job as a callback leaves it. *)
Definition notified (f : option InfoFn) (j : Job) : Job :=
  match f with
  | Some g => with_info j (g (info_of j))
  | None => j
  end.

Definition informed (f : option ErrorFn) (e : Err) (j : Job) : Job :=
  match f with
  | Some g => with_info j (g (info_of j) e)
  | None => j
  end.

(** [n] calls of the runnable, each made when the previous one has run to
    completion (two turns of the loop: the task settles, the runnable
    resumes); the result lists the promises returned. *)
Fixpoint sequential (r : Runnable) (n : nat) (w : World) : list nat * World :=
  match n with
  | 0 => ([], w)
  | S n =>
      let (out, w1) := invoke r w in
      let (outs, w2) := sequential r n (steps 2 w1) in
      (out :: outs, w2)
  end.

(** The kind of an event. *)
Inductive Shape :=
  | SBefore | SAfter | SOnError | SStatus (s : Status) | SNew | SCall
  | SArm | STick | SFail.

Definition shape (e : nat * Event) : Shape :=
  match e.2 with
  | EvBefore _ => SBefore
  | EvAfter _ => SAfter
  | EvOnError _ _ => SOnError
  | EvStatus _ s => SStatus s
  | EvNew _ => SNew
  | EvCall _ _ => SCall
  | EvArm _ _ => SArm
  | EvTick _ => STick
  | EvFail _ => SFail
  end.

Definition opt_shape {A} (f : option A) (s : Shape) : list Shape :=
  match f with Some _ => [s] | None => [] end.

(** What one successful tick does, in order. *)
Definition round_shape (r : Runnable) : list Shape :=
  opt_shape (r_before r) SBefore ++
  [SStatus running; SCall; SStatus pending] ++
  opt_shape (r_after r) SAfter.

(** The task is still going when [ms] milliseconds have passed. *)
Definition outlasts (ms : nat) (o : Outcome) : Prop :=
  match o with
  | Settles d _ => ms <= d
  | Never => True
  end.

(** ** Statements about what callbacks reach *)

(** An operation that respects a relation between the world before and
    the world after. *)
Definition keeps (R : World -> World -> Prop) {A} (m : M A) : Prop :=
  forall w, R w (m w).2.

(** The scheduling parameters of a job. *)
Definition sched (j : Job) : DoFn * nat * option nat * option nat :=
  (do j, interval j, defer j, timeout j).

(** Every job of [h] is still there in [h'], with the same scheduling
    parameters. *)
Definition keeps_sched (h h' : list Job) : Prop :=
  forall a j, h !! a = Some j -> exists j', h' !! a = Some j' /\ sched j' = sched j.

Definition same_sched (w w' : World) : Prop := keeps_sched (heap w) (heap w').

(** The promises that are settled in [w] are settled in [w'], in the same
    way. *)
Definition settled_stay (w w' : World) : Prop :=
  forall p r, state_of p w = Some (Some r) -> state_of p w' = Some (Some r).

(** Callbacks that write through their [JobInfo] view. *)
Definition mark_running : InfoFn :=
  fun i => {| info_name := info_name i; info_status := running |}.

Definition plain_job : Job :=
  {| do := {| fn_id := 0; fn_beh := fun _ => Settles 5 Fulfilled |};
     name := "plain"%string; interval := 1000; defer := None;
     status := undefined; timeout := None |}.

(** ** Statements about sequence *)

(** What a call of the composed runnable is to do, in the words of the
    specification: the steps are called in the given order, each when the
    one before it has succeeded; the first failure is the failure of the
    whole and no later step is called; with no step left the call succeeds.
    The result is the list of calls made, with their instants, and how the
    composed promise ends ([None]: it stays pending). *)
Fixpoint sequence_spec (doFns : list DoFn) (c : nat -> nat) (t : nat) :
    list (nat * Event) * option Result :=
  match doFns with
  | [] => ([], Some Fulfilled)
  | f :: rest =>
      let later :=
        match fn_beh f (c (fn_id f)) with
        | Settles d Fulfilled => sequence_spec rest (called f c) (t + d)
        | Settles d (Rejected e) => ([], Some (Rejected e))
        | Never => ([], None)
        end in
      ((t, EvCall (fn_id f) (c (fn_id f))) :: later.1, later.2)
  end.

(** ** Statements about run *)

Definition settled (r : Result) : Cell := {| p_state := Some r; p_reactions := [] |}.
Definition unsettled (rs : list Reaction) : Cell := {| p_state := None; p_reactions := rs |}.

(** The promises, timers and microtasks a tick adds. *)
Definition tick_promises (R np : nat) (o : Outcome) : list Cell :=
  match o with
  | Settles 0 r => [settled r; unsettled []]
  | _ => [unsettled [OnCatch (FailFn R) (np + 1)]; unsettled []]
  end.

Definition tick_timers (t np : nat) (o : Outcome) : list Timer :=
  match o with
  | Settles (S d) r =>
      [{| t_due := t + S d; t_kind := Once; t_active := true; t_fn := Settle np r |}]
  | _ => []
  end.

Definition tick_micro (R np : nat) (o : Outcome) : list (Reaction * Result) :=
  match o with
  | Settles 0 r => [(OnCatch (FailFn R) (np + 1), r)]
  | _ => []
  end.

(** [timeouts.forEach(clearInterval)] on the timer table. *)
Definition stop_one (ts : list Timer) (t : nat) : list Timer :=
  match ts !! t with
  | Some tm => <[t := stopped tm]> ts
  | None => ts
  end.

Definition stop_all (ids : list nat) (ts : list Timer) : list Timer :=
  foldl stop_one ts ids.

(** An error that is the rejection of some call of the task of a working
    copy (the jobs at the addresses from [n0] on). *)
Definition job_error (h : list Job) (n0 : nat) (e : Err) : Prop :=
  exists c j k d, n0 <= c /\ h !! c = Some j /\
    fn_beh (do j) k = Settles d (Rejected e).

Definition res_ok (h : list Job) (n0 : nat) (r : Result) : Prop :=
  match r with
  | Fulfilled => True
  | Rejected e => job_error h n0 e
  end.

(** The timers of a cycle call [startJob] or [tick] of a working copy, or
    settle the promise of a task. *)
Definition timer_ok (R : nat) (h : list Job) (n0 : nat) (t : Timer) : Prop :=
  match t_fn t with
  | StartJob c R' | Tick c R' => R' = R /\ n0 <= c
  | Settle p r => R < p /\ res_ok h n0 r
  | _ => False
  end.

(** The only reactions of a cycle are the [catch(fail)] of the ticks. *)
Definition rx_ok (R : nat) (rx : Reaction) : Prop :=
  match rx with
  | OnCatch (FailFn R') d => R' = R /\ R < d
  | _ => False
  end.

Definition cell_ok (R : nat) (h : list Job) (n0 : nat) (c : Cell) : Prop :=
  Forall (rx_ok R) (p_reactions c) /\
  forall r, p_state c = Some r -> res_ok h n0 r.

Definition task_ok (R : nat) (h : list Job) (n0 : nat) (m : Reaction * Result) : Prop :=
  rx_ok R m.1 /\ res_ok h n0 m.2.

Record cycle_inv (R : nat) (h : list Job) (n0 : nat) (w : World) : Prop := {
  ci_heap : heap w = h;
  ci_run : exists c, promises w !! R = Some c /\ p_state c <> Some Fulfilled;
  ci_timers : Forall (timer_ok R h n0) (timers w);
  ci_cells : Forall (cell_ok R h n0) (promises w);
  ci_micro : Forall (task_ok R h n0) (micro w)
}.

(** The objects [jobs.map(...)] creates, on a heap [h]. *)
Fixpoint copies_of (h : list Job) (jobs : list nat) : list Job :=
  match jobs with
  | [] => []
  | a :: l =>
      let c := with_status (default no_job (h !! a)) pending in
      c :: copies_of (h ++ [c]) l
  end.

(** The world in which the jobs are scheduled: the caller's objects, the
    working copies, and the pending promise of the cycle. *)
Definition copied (descs : list Job) (jobs : list nat) : World :=
  {| now := 0; heap := descs ++ copies_of descs jobs;
     promises := [unsettled []]; timers := []; micro := [];
     calls := fun _ => 0; timeouts := []; log := [] |}.

(** An error that is the rejection of some call of the task of a job
    passed to [run]. *)
Definition job_failure (descs : list Job) (jobs : list nat) (e : Err) : Prop :=
  exists a j k d, a ∈ jobs /\ descs !! a = Some j /\
    fn_beh (do j) k = Settles d (Rejected e).

(** The task of a working copy is the task of a job passed to [run] (or of
    no object, when the reference designates none). *)
Definition sourced (descs : list Job) (jobs : list nat) (c : Job) : Prop :=
  do c = do no_job \/
  exists a j, a ∈ jobs /\ descs !! a = Some j /\ do c = do j.

(** The events of the start and of the ticks of the working copy [c]. *)
Definition about (c : nat) (ev : Event) : Prop :=
  ev = EvTick c \/ exists t, ev = EvArm c t.

(** For a working copy [c] whose start is deferred by [ms]: nothing of [c]
    is logged before [ms]; [tick] of [c] is a timer only once [ms] has
    come; [startJob] of [c] is not due before [ms]. *)
Definition timer_on_time (c ms t : nat) (tm : Timer) : Prop :=
  match t_fn tm with
  | Tick c' _ => c' = c -> ms <= t
  | StartJob c' _ => c' = c -> ms <= t_due tm
  | _ => True
  end.

Definition on_time (c ms : nat) (w : World) : Prop :=
  Forall (fun e => about c e.2 -> ms <= e.1) (log w) /\
  Forall (timer_on_time c ms (now w)) (timers w).

Definition deferred (h : list Job) (c ms : nat) : Prop :=
  truthy (defer (default no_job (h !! c))) = Some ms.

(** What scheduling leaves behind for a job. *)
Definition set_up (R c t0 : nat) (j : Job) (w : World) : Prop :=
  match truthy (defer j) with
  | Some ms =>
      exists t, timers w !! t =
        Some {| t_due := t0 + ms; t_kind := Once; t_active := true;
                t_fn := StartJob c R |}
  | None =>
      exists t, timers w !! t =
        Some {| t_due := t0 + timer_delay (interval j);
                t_kind := Every (timer_delay (interval j));
                t_active := true; t_fn := Tick c R |} /\
        (t0, EvArm c t) ∈ log w /\ (t0, EvTick c) ∈ log w
  end.

(** ** Instances *)

(** A job whose task never settles, and the world after a first call of
    its runnable. *)
Definition stuck_job : Job :=
  {| do := {| fn_id := 0; fn_beh := fun _ => Never |};
     name := "stuck"%string; interval := 1000; defer := None;
     status := undefined; timeout := None |}.

Definition stuck_runnable : Runnable :=
  (prepare 0 None None None (init_world [stuck_job])).1.

Definition stuck_world : World :=
  (invoke stuck_runnable (init_world [stuck_job])).2.

(** The job of the specification's example: [timeout: 50], and a task that
    is fulfilled after 200 ms. *)
Definition slow_job : Job :=
  {| do := {| fn_id := 0; fn_beh := fun _ => Settles 200 Fulfilled |};
     name := "slow"%string; interval := 1000; defer := None;
     status := undefined; timeout := Some 50 |}.

Definition slow_runnable : Runnable :=
  (prepare 0 None None None (init_world [slow_job])).1.

(** A job with both notifications, ticked three times. *)
Definition notice : InfoFn := fun i => i.

Definition noticed_runnable : Runnable :=
  (prepare 0 (Some notice) (Some notice) None (init_world [plain_job])).1.

(** Three steps of which the second fails. *)
Definition step_a : DoFn := {| fn_id := 0; fn_beh := fun _ => Settles 10 Fulfilled |}.
Definition step_b : DoFn := {| fn_id := 1; fn_beh := fun _ => Settles 0 (Rejected boom) |}.
Definition step_c : DoFn := {| fn_id := 2; fn_beh := fun _ => Settles 10 Fulfilled |}.

(** Job A, every 100 ms, whose third tick is rejected; job B, every 150 ms,
    deferred by 500 ms. *)
Definition jobA : Job :=
  {| do := {| fn_id := 0;
              fn_beh := fun k => if (k =? 2)%nat then Settles 0 (Rejected boom)
                                 else Settles 0 Fulfilled |};
     name := "A"%string; interval := 100; defer := None;
     status := undefined; timeout := None |}.

Definition jobB : Job :=
  {| do := {| fn_id := 1; fn_beh := fun _ => Settles 0 Fulfilled |};
     name := "B"%string; interval := 150; defer := Some 500;
     status := undefined; timeout := None |}.

Definition cycle_AB : World := (run [0; 1] (init_world [jobA; jobB])).2.

(** ** The cycle of A and B *)

(** The cycle of A and B between two ticks of B: the interval of A is
    stopped, the timeout of B has fired, the interval of B is armed for
    [d], and the [catch] of the last tick is about to run. *)
Definition ticking (t d : nat) (w : World) : Prop :=
  now w = t /\
  heap w = [jobA; jobB; with_status jobA pending; with_status jobB pending] /\
  timers w =
    [{| t_due := 300; t_kind := Every 100; t_active := false; t_fn := Tick 2 0 |};
     {| t_due := 500; t_kind := Once; t_active := false; t_fn := StartJob 3 0 |};
     {| t_due := d; t_kind := Every 150; t_active := true; t_fn := Tick 3 0 |}] /\
  exists ps, promises w = ps ++ [unsettled []] /\
    ps !! 0 = Some (settled (Rejected boom)) /\
    micro w = [(OnCatch (FailFn 0) (length ps), Fulfilled)].

(** ** Further statements about prepare and run *)

(** A job without timeout whose task rejects after 10 ms, and a handler
    that leaves the job as it finds it. *)
Definition failing_job : Job :=
  {| do := {| fn_id := 0; fn_beh := fun _ => Settles 10 (Rejected boom) |};
     name := "failing"%string; interval := 1000; defer := None;
     status := undefined; timeout := None |}.

Definition report : ErrorFn := fun i _ => i.

Definition failing_runnable : Runnable :=
  (prepare 0 None None (Some report) (init_world [failing_job])).1.

(** A job with [timeout: 50] whose task is fulfilled after 10 ms. *)
Definition quick_job : Job :=
  {| do := {| fn_id := 0; fn_beh := fun _ => Settles 10 Fulfilled |};
     name := "quick"%string; interval := 1000; defer := None;
     status := undefined; timeout := Some 50 |}.

Definition quick_runnable : Runnable :=
  (prepare 0 None (Some notice) None (init_world [quick_job])).1.

Definition guarded_runnable : Runnable :=
  (prepare 0 None None (Some report) (init_world [guarded_job])).1.

(** The closures that start or tick a job, and the events by which a job
    is armed, ticked or its task called. *)
Definition drives (f : Closure) : bool :=
  match f with
  | StartJob _ _ | Tick _ _ => true
  | _ => false
  end.

Definition activity (e : Event) : bool :=
  match e with
  | EvArm _ _ | EvTick _ | EvCall _ _ => true
  | _ => false
  end.

(** A cycle in which [fail] reaches every job: every timer that starts or
    ticks a job is recorded in [timeouts], and once the promise of the
    cycle is rejected none of them is active. *)
Record clearable (R : nat) (w : World) : Prop := {
  cl_listed : forall i tm,
    timers w !! i = Some tm -> drives (t_fn tm) = true -> i ∈ timeouts w;
  cl_stopped : forall e,
    state_of R w = Some (Some (Rejected e)) ->
    Forall (fun tm => drives (t_fn tm) = true -> t_active tm = false) (timers w)
}.

(** A cycle of two jobs, neither deferred: the third tick of the first
    fails. *)
Definition jobC : Job :=
  {| do := {| fn_id := 1; fn_beh := fun _ => Settles 20 Fulfilled |};
     name := "C"%string; interval := 150; defer := None;
     status := undefined; timeout := None |}.

Definition cycle_AC : World := (run [0; 1] (init_world [jobA; jobC])).2.

(** A job whose task never settles, every 100 ms. *)
Definition hung_job : Job :=
  {| do := {| fn_id := 0; fn_beh := fun _ => Never |};
     name := "hung"%string; interval := 100; defer := None;
     status := undefined; timeout := None |}.

(** A job with [timeout: 50] whose task never settles. *)
Definition hung_guarded_job : Job :=
  {| do := {| fn_id := 0; fn_beh := fun _ => Never |};
     name := "hung"%string; interval := 1000; defer := None;
     status := undefined; timeout := Some 50 |}.

Definition hung_guarded_runnable : Runnable :=
  (prepare 0 None None (Some report) (init_world [hung_guarded_job])).1.

From Stdlib Require Import Ascii.

(** * The other modules of the SDK: validate, query, http

    Conventions of the model.
    - A string is the sequence of its bytes in UTF-8.  The expressions of
      the sources name ASCII characters only, so that a string is accepted
      in this reading exactly when it is in JavaScript's.
    - An object is the list of its own properties, in the order of
      [Object.keys]; a specification or a [data] object is given by such a
      list, whose keys are distinct.
    - Values of type [unknown] are those of any type that answers the
      questions this code asks of them ([js.Unknown]); numbers are those of
      any type with [NaN] and an order ([js.Numbers]), and [parseInt] is
      the runtime's.
    - A validation function returns [true] or nothing, or throws an [Error]
      with its message; it has no other effect. *)

(** ** The runtime they are written against *)

Module js.

(** The values of type [unknown] that [validate] and the validators
    receive, by what this code asks of them. *)
Class Unknown (Val : Type) := {
  undefined : Val;
  is_object : Val -> bool;            (* typeof v === 'object' && v !== null *)
  is_nullish : Val -> bool;           (* v === null || v === undefined *)
  truthy : Val -> bool;               (* v, where a condition is expected *)
  string_of : Val -> option string;   (* the string, when typeof v === 'string' *)
  prop : Val -> string -> Val         (* v[k] *)
}.

(** Numbers: [NaN], and an order on the others, by which [Math.max] and
    [Math.min] choose; [parseInt] is the runtime's. *)
Class Numbers (number : Type) := {
  NaN : number;
  isNaN : number -> bool;
  leb : number -> number -> bool;
  parseInt : string -> number
}.

Definition Math_max `{Numbers number} (a b : number) : number :=
  if isNaN a || isNaN b then NaN else if leb a b then b else a.

Definition Math_min `{Numbers number} (a b : number) : number :=
  if isNaN a || isNaN b then NaN else if leb a b then a else b.

(** The own properties of an object literal, in the order of their
    creation; [o[k] = x] and [o[k]]. *)
Fixpoint assign {A} (o : list (string * A)) (k : string) (x : A) : list (string * A) :=
  match o with
  | [] => [(k, x)]
  | (k', y) :: o' =>
      if String.eqb k' k then (k', x) :: o' else (k', y) :: assign o' k x
  end.

Fixpoint own {A} (o : list (string * A)) (k : string) : option A :=
  match o with
  | [] => None
  | (k', y) :: o' => if String.eqb k' k then Some y else own o' k
  end.

Definition keys {A} (o : list (string * A)) : list string := map fst o.

(** [arr.includes(s)], for strings. *)
Definition includes (arr : list string) (s : string) : bool :=
  existsb (String.eqb s) arr.

End js.

(** ** Regular expressions *)

Module RegExp.

(** A member of a character class: a range or one character. *)
Inductive Member := Range (lo hi : ascii) | Char (c : ascii).

(** The patterns of the sources, which stand between [^] and [$]: one
    character, a class, concatenation, alternation, repetition; [Nothing]
    matches no string and [Empty] the empty one. *)
Inductive Pattern :=
  | Nothing
  | Empty
  | Lit (c : ascii)
  | Class (ms : list Member)
  | Cat (r s : Pattern)
  | Or (r s : Pattern)
  | Star (r : Pattern).

(** [r?], [r+], [r{2,}] *)
Definition Opt (r : Pattern) : Pattern := Or r Empty.
Definition Plus (r : Pattern) : Pattern := Cat r (Star r).
Definition TwoOrMore (r : Pattern) : Pattern := Cat r (Cat r (Star r)).

Definition member (c : ascii) (m : Member) : bool :=
  match m with
  | Range lo hi => Ascii.leb lo c && Ascii.leb c hi
  | Char d => Ascii.eqb c d
  end.

Definition in_class (ms : list Member) (c : ascii) : bool := existsb (member c) ms.

(** Matching by derivatives: [nullable r] when [r] matches the empty
    string, [deriv c r] matches what [r] matches after a [c]. *)
Fixpoint nullable (r : Pattern) : bool :=
  match r with
  | Nothing | Lit _ | Class _ => false
  | Empty | Star _ => true
  | Cat r s => nullable r && nullable s
  | Or r s => nullable r || nullable s
  end.

Fixpoint deriv (c : ascii) (r : Pattern) : Pattern :=
  match r with
  | Nothing | Empty => Nothing
  | Lit d => if Ascii.eqb c d then Empty else Nothing
  | Class ms => if in_class ms c then Empty else Nothing
  | Cat r s =>
      if nullable r then Or (Cat (deriv c r) s) (deriv c s) else Cat (deriv c r) s
  | Or r s => Or (deriv c r) (deriv c s)
  | Star r => Cat (deriv c r) (Star r)
  end.

Fixpoint matches (r : Pattern) (s : list ascii) : bool :=
  match s with
  | [] => nullable r
  | c :: s' => matches (deriv c r) s'
  end.

(** [re.test(s)] for [re = /^r$/]. *)
Definition test (r : Pattern) (s : string) : bool :=
  matches r (String.list_ascii_of_string s).

(** The strings a pattern stands for. *)
Fixpoint lang (r : Pattern) (s : list ascii) : Prop :=
  match r with
  | Nothing => False
  | Empty => s = []
  | Lit c => s = [c]
  | Class ms => exists c, s = [c] /\ in_class ms c = true
  | Cat r1 r2 => exists s1 s2, s = s1 ++ s2 /\ lang r1 s1 /\ lang r2 s2
  | Or r1 r2 => lang r1 s \/ lang r2 s
  | Star r1 => exists ss, s = mjoin ss /\ Forall (lang r1) ss
  end.

End RegExp.

(** ** validate *)

Module validate.
Import js RegExp.

(** What a call of a validation function does: it returns [undefined],
    returns [true], or throws an error with a message. *)
Inductive Verdict := Void | Truth | Throw (message : string).

(** [type ValidateFn = (input: unknown, origInput?: unknown) => true | void] *)
Definition ValidateFn (Val : Type) : Type := Val -> Val -> Verdict.

(** [class ValidateError] *)
Record ValidateError := { param : string; message : string }.

Inductive Outcome (A : Type) := Return (a : A) | Raise (e : ValidateError).
Arguments Return {A} a.
Arguments Raise {A} e.

(** [type Spec<T>]: a validation function, or an object of specifications. *)
#[warnings="-register-all"]
Inductive Spec (Val : Type) :=
  | Fn (f : ValidateFn Val)
  | Obj (fields : list (string * Spec Val)).
Arguments Fn {Val} f.
Arguments Obj {Val} fields.

(** The object [validate] builds: under each key a value of the input, or
    the object built for a nested specification. *)
#[warnings="-register-all"]
Inductive Data (Val : Type) :=
  | Leaf (v : Val)
  | Node (fields : list (string * Data Val)).
Arguments Leaf {Val} v.
Arguments Node {Val} fields.

Section Validators.
Context `{Unknown Val}.

(** [/^[a-f0-9]*$/] *)
Definition hexRegexp : Pattern :=
  Star (Class [Range "a" "f"; Range "0" "9"]).

(** [/^[a-zA-Z0-9._+-]+@[a-zA-Z0-9.-]+\.[a-zA-Z]{2,}$/] *)
Definition emailRegexp : Pattern :=
  Cat (Plus (Class [Range "a" "z"; Range "A" "Z"; Range "0" "9";
                    Char "."; Char "_"; Char "+"; Char "-"]))
  (Cat (Lit "@")
  (Cat (Plus (Class [Range "a" "z"; Range "A" "Z"; Range "0" "9"; Char "."; Char "-"]))
  (Cat (Lit ".")
       (TwoOrMore (Class [Range "a" "z"; Range "A" "Z"]))))).

(** An address as [emailRegexp] reads it: a local part, [@], a host, a dot
    and a last label of two letters at least. *)
Definition address (s : list ascii) : Prop :=
  exists loc host tld : list ascii,
    s = loc ++ "@"%char :: host ++ "."%char :: tld /\
    loc <> [] /\
    Forall (fun c => in_class [Range "a" "z"; Range "A" "Z"; Range "0" "9";
                               Char "."; Char "_"; Char "+"; Char "-"] c = true) loc /\
    host <> [] /\
    Forall (fun c => in_class [Range "a" "z"; Range "A" "Z"; Range "0" "9";
                               Char "."; Char "-"] c = true) host /\
    2 <= length tld /\
    Forall (fun c => in_class [Range "a" "z"; Range "A" "Z"] c = true) tld.

(** The characters of lowercase hexadecimal. *)
Definition hexdigits : list ascii := String.list_ascii_of_string "0123456789abcdef".

(** [str]: input is a string. *)
Definition str : ValidateFn Val := fun input _ =>
  match string_of input with
  | Some _ => Void
  | None => Throw "must be a string"
  end.

(** [hex] and [email]: [str(input)], then the expression is tried on the
    string. *)
Definition hex : ValidateFn Val := fun input _ =>
  match string_of input with
  | None => Throw "must be a string"
  | Some s => if test hexRegexp s then Void else Throw "invalid characters"
  end.

Definition email : ValidateFn Val := fun input _ =>
  match string_of input with
  | None => Throw "must be a string"
  | Some s => if test emailRegexp s then Void else Throw "invalid email address"
  end.

(** [optional] *)
Definition optional : ValidateFn Val := fun input _ =>
  if is_nullish input then Truth else Void.

(** [seq(...fs)]: the loop leaves at the first function that returns a
    truthy value, and the error of a function that throws goes through. *)
Fixpoint seq (fs : list (ValidateFn Val)) : ValidateFn Val := fun input origInput =>
  match fs with
  | [] => Void
  | f :: fs' =>
      match f input origInput with
      | Throw m => Throw m
      | Truth => Void
      | Void => seq fs' input origInput
      end
  end.

(** [parent ? `${parent}.${k}` : k] *)
Definition qualified (parent k : string) : string :=
  match parent with
  | EmptyString => k
  | _ => (parent ++ "." ++ k)%string
  end.

(** [validate(spec, parent)(input, origInput)]: the [reduce] over
    [Object.keys(spec)], from the empty object. *)
Fixpoint validate (spec : Spec Val) (parent : string) (input origInput : Val)
    : Outcome (list (string * Data Val)) :=
  if negb (is_object input) then Raise {| param := ""; message := "no data" |}
  else
    match spec with
    | Fn _ => Return []
    | Obj fields =>
        let orig := if truthy origInput then origInput else input in
        (fix reduce (ks : list (string * Spec Val)) (v : list (string * Data Val)) :=
           match ks with
           | [] => Return v
           | (k, f) :: ks' =>
               let value := prop input k in
               match f with
               | Fn g =>
                   match g value orig with
                   | Throw m => Raise {| param := qualified parent k; message := m |}
                   | _ => reduce ks' (assign v k (Leaf value))
                   end
               | Obj _ =>
                   match validate f k value orig with
                   | Return x => reduce ks' (assign v k (Node x))
                   | Raise e => Raise e
                   end
               end
           end) fields []
    end.

(** The [reduce] of [validate] as a function of its own: the keys [ks]
    that are left, and the object [v] built so far. *)
Fixpoint reduce (parent : string) (input orig : Val)
    (ks : list (string * Spec Val)) (v : list (string * Data Val))
    : Outcome (list (string * Data Val)) :=
  match ks with
  | [] => Return v
  | (k, f) :: ks' =>
      let value := prop input k in
      match f with
      | Fn g =>
          match g value orig with
          | Throw m => Raise {| param := qualified parent k; message := m |}
          | _ => reduce parent input orig ks' (assign v k (Leaf value))
          end
      | Obj _ =>
          match validate f k value orig with
          | Return x => reduce parent input orig ks' (assign v k (Node x))
          | Raise e => Raise e
          end
      end
  end.

(** The parameters an error of [validate(spec, parent)] can name. *)
Fixpoint params (spec : Spec Val) (parent : string) : list string :=
  match spec with
  | Fn _ => []
  | Obj fields =>
      flat_map (fun kf =>
        match kf.2 with
        | Fn _ => [qualified parent kf.1]
        | Obj _ => params kf.2 kf.1
        end) fields
  end.

(** The specification whose validation functions are all given [o] as
    their second argument. *)
Fixpoint pinned (o : Val) (spec : Spec Val) : Spec Val :=
  match spec with
  | Fn f => Fn (fun v _ => f v o)
  | Obj fields => Obj (map (fun kf => (kf.1, pinned o kf.2)) fields)
  end.

(** What [validate] has checked and copied under the key [k] of a
    specification [f], for an object [v] it returns. *)
Definition copied_under (input orig : Val) (v : list (string * Data Val))
    (k : string) (f : Spec Val) : Prop :=
  match f with
  | Fn g =>
      own v k = Some (Leaf (prop input k)) /\
      forall m, g (prop input k) orig <> Throw m
  | Obj _ =>
      exists x, own v k = Some (Node x) /\
        validate f k (prop input k) orig = Return x
  end.

End Validators.
End validate.

(** ** query *)

Module query.
Import js RegExp.

(** [type Direction = 'ASC' | 'DESC'] *)
Inductive Direction := ASC | DESC.

(** [type Input = undefined | string | string[] | ParsedQs | ParsedQs[]],
    a [ParsedQs] being an object of such values. *)
#[warnings="-register-all"]
Inductive Input :=
  | Undefined
  | String_ (s : string)
  | Strings (l : list string)
  | ParsedQs (o : list (string * Input))
  | ParsedQsList (l : list (list (string * Input))).

(** The arrays [sorts] receives as default and returns: a sort is the
    array [[prop, dir]]. *)
#[warnings="-register-all"]
Inductive Item := Str (s : string) | Arr (l : list Item).

Definition FALSE : list string := ["0"; "no"; "off"; "false"]%string.

(** [/^-?[a-zA-Z0-9._]+$/] *)
Definition SORT_REGEXP : Pattern :=
  Cat (Opt (Lit "-"))
      (Plus (Class [Range "a" "z"; Range "A" "Z"; Range "0" "9"; Char "."; Char "_"])).

Definition TRUE : list string := ["1"; "on"; "yes"; "true"]%string.

(** [input instanceof Array], and the elements of such an input. *)
Definition is_array (input : Input) : Datatypes.bool :=
  match input with
  | Strings _ | ParsedQsList _ => true
  | _ => false
  end.

Definition elements (input : Input) : list Input :=
  match input with
  | Strings l => map String_ l
  | ParsedQsList l => map ParsedQs l
  | _ => []
  end.

(** [input[0]] *)
Definition first (input : Input) : Input := hd Undefined (elements input).

(** [array(input, def)] *)
Definition array (input : Input) (def : option (list string)) : list Input :=
  if is_array input then elements input
  else
    match input with
    | String_ s => [String_ s]
    | _ => map String_ (default [] def)
    end.

(** [bool(input, def)] *)
Definition bool (input : Input) (def : option Datatypes.bool) : option Datatypes.bool :=
  match input with
  | String_ s =>
      if includes TRUE s then Some true
      else if includes FALSE s then Some false
      else def
  | _ => def
  end.

(** [integer(input, min, max)]: for an array, the function is called again
    on its first element, which is no array. *)
Definition integer_scalar `{Numbers number} (input : Input) (min max : option number)
    : option number :=
  match input with
  | String_ s =>
      let n := parseInt s in
      if isNaN n then None
      else
        let n := match min with Some lo => Math_max n lo | None => n end in
        let n := match max with Some hi => Math_min n hi | None => n end in
        Some n
  | _ => None
  end.

Definition integer `{Numbers number} (input : Input) (min max : option number)
    : option number :=
  if is_array input then integer_scalar (first input) min max
  else integer_scalar input min max.

(** [v[0] === '-' ? [v.slice(1), 'DESC'] : [v, 'ASC']] *)
Definition parse (v : string) : string * Direction :=
  match v with
  | String "-" rest => (rest, DESC)
  | _ => (v, ASC)
  end.

Definition tuple (s : string * Direction) : Item :=
  Arr [Str s.1; Str (match s.2 with ASC => "ASC" | DESC => "DESC" end)].

(** What [SORT_REGEXP.test(v)] is given for an element of the array: the
    string, or the string an object converts to. *)
Definition as_text (v : Input) : string :=
  match v with
  | String_ s => s
  | _ => "[object Object]"
  end.

(** [sorts(input, allow, def)] *)
Definition sorts (input : Input) (allow : list string) (def : option (list Item))
    : list Item :=
  if is_array input then
    map tuple
      (filter (fun s => includes allow s.1 = true)
         (map (fun v => parse (as_text v))
            (filter (fun v => test SORT_REGEXP (as_text v) = true) (elements input))))
  else
    match input with
    | String_ s =>
        if includes allow (parse s).1 then [tuple (parse s)] else []
    | _ =>
        match def with
        | Some (Arr x :: l) => Arr x :: l
        | Some d => [Arr d]
        | None => []
        end
    end.

(** A name made of letters, digits, dots and underscores, and not empty. *)
Definition plain (p : string) : Prop :=
  p <> ""%string /\
  Forall (fun c => in_class [Range "a" "z"; Range "A" "Z"; Range "0" "9";
                             Char "."; Char "_"] c = true)
    (String.list_ascii_of_string p).

(** [str(input)] *)
Definition str (input : Input) : Input :=
  if is_array input then first input
  else
    match input with
    | String_ s => String_ s
    | _ => Undefined
    end.

End query.

(** ** http *)

Module http.
Import js.

(** A value of the body of a response: a text of the handler, or a value
    supplied in [data]. *)
Inductive Value (Val : Type) := Text (s : string) | Given (v : Val).
Arguments Text {Val} s.
Arguments Given {Val} v.

(** What a handler does with [res] and [next], in order. *)
Inductive Effect (Val : Type) :=
  | status (code : nat)
  | json (body : list (string * Value Val))
  | next.
Arguments status {Val} code.
Arguments json {Val} body.
Arguments next {Val}.

Section Handlers.
Context {Val : Type}.

(** [{ message: m, ...data }] *)
Definition with_message (m : string) (data : option (list (string * Val)))
    : list (string * Value Val) :=
  foldl (fun o kv => assign o kv.1 (Given kv.2)) [("message"%string, Text m)]
    (default [] data).

(** [error(res, next, code, data)] *)
Definition error (code : nat) (data : list (string * Value Val)) : list (Effect Val) :=
  [status code; json data; next].

Definition badRequest data := error 400 (with_message "bad request" data).
Definition forbidden data := error 403 (with_message "forbidden" data).
Definition internalServerError data := error 500 (with_message "internal server error" data).
Definition notAllowed data := error 405 (with_message "method not allowed" data).
Definition notFound data := error 404 (with_message "not found" data).
Definition paymentRequired data := error 402 (with_message "payment required" data).
Definition tooManyRequests data := error 429 (with_message "too many requests" data).
Definition unauthorized data := error 401 (with_message "unauthorized" data).
Definition unavailable data := error 503 (with_message "service unavailable" data).
Definition unimplemented data := error 501 (with_message "unimplemented" data).

(** The handlers of type [ErrorHandler], with the code and the message of
    each. *)
Definition handlers
    : list ((option (list (string * Val)) -> list (Effect Val)) * nat * string) :=
  [(badRequest, 400, "bad request"); (forbidden, 403, "forbidden");
   (internalServerError, 500, "internal server error");
   (notAllowed, 405, "method not allowed"); (notFound, 404, "not found");
   (paymentRequired, 402, "payment required");
   (tooManyRequests, 429, "too many requests"); (unauthorized, 401, "unauthorized");
   (unavailable, 503, "service unavailable"); (unimplemented, 501, "unimplemented")]%string.

End Handlers.
End http.

(** ** Instances of the runtime *)

Module sample.

(** Values: [undefined], [null], strings, and objects of such values. *)
#[warnings="-register-all"]
Inductive Value :=
  | Undef
  | Null
  | Text (s : string)
  | Object (fields : list (string * Value)).

#[global] Instance Value_unknown : js.Unknown Value := {|
  js.undefined := Undef;
  js.is_object v := match v with Object _ => true | _ => false end;
  js.is_nullish v := match v with Undef | Null => true | _ => false end;
  js.truthy v := match v with Undef | Null | Text EmptyString => false | _ => true end;
  js.string_of v := match v with Text s => Some s | _ => None end;
  js.prop v k := match v with Object o => default Undef (js.own o k) | _ => Undef end
|}.

(** Numbers: the naturals, and [None] for [NaN]; [parseInt] reads the
    digits a string starts with. *)
Definition digit (c : ascii) : option nat :=
  let n := nat_of_ascii c in
  if (48 <=? n) && (n <=? 57) then Some (n - 48) else None.

Fixpoint digits (s : string) (acc : option nat) : option nat :=
  match s with
  | EmptyString => acc
  | String c s' =>
      match digit c with
      | Some d => digits s' (Some (10 * default 0 acc + d))
      | None => acc
      end
  end.

#[global] Instance nat_numbers : js.Numbers (option nat) := {|
  js.NaN := None;
  js.isNaN n := match n with None => true | Some _ => false end;
  js.leb a b := match a, b with Some x, Some y => x <=? y | _, _ => false end;
  js.parseInt s := digits s None
|}.

(** A specification three objects deep, and an input for it. *)
Definition deep_spec : validate.Spec Value :=
  validate.Obj [("a", validate.Obj [("b", validate.Obj [("c", validate.Fn validate.hex)])])]%string.

Definition deep_input (c : string) : Value :=
  Object [("a", Object [("b", Object [("c", Text c)])])]%string.

(** A specification for a name and an optional note, and an input with a
    name and something else. *)
Definition flat_spec : list (string * validate.Spec Value) :=
  [("name", validate.Fn validate.str);
   ("note", validate.Fn (validate.seq [validate.optional; validate.str]))]%string.

Definition flat_input : Value :=
  Object [("extra", Text "x"); ("name", Text "n")]%string.

End sample.

(** * Properties *)

(** ** The event loop *)

Lemma steps_0 w : steps 0 w = w.
Proof. reflexivity. Qed.

Lemma steps_S n w : steps (S n) w = step (steps n w).
Proof. reflexivity. Qed.

Lemma steps_S_inner n w : steps (S n) w = steps n (step w).
Proof.
  induction n as [|n IH]; [done|].
  by rewrite steps_S, IH.
Qed.

Lemma steps_add n m w : steps (n + m) w = steps m (steps n w).
Proof.
  revert w; induction m as [|m IH]; intros w.
  - by rewrite Nat.add_0_r.
  - by rewrite Nat.add_succ_r, !steps_S, IH.
Qed.

Lemma steps_fixed n w : step w = w -> steps n w = w.
Proof.
  intros Hw; induction n as [|n IH]; [done|].
  by rewrite steps_S, IH.
Qed.

Lemma earliest_inactive ts i :
  Forall (fun t => t_active t = false) ts -> earliest ts i = None.
Proof.
  intros H; revert i; induction H as [|t ts Ht _ IH]; intros i; [done|].
  cbn. by rewrite Ht, IH.
Qed.

Lemma step_idle w : idle w -> step w = w.
Proof.
  intros [Hm Ht]. unfold step. by rewrite Hm, (earliest_inactive _ _ Ht).
Qed.

Lemma steps_idle n w : idle w -> steps n w = w.
Proof. intros; by apply steps_fixed, step_idle. Qed.

(** ** Symbolic execution on arbitrary worlds *)

Lemma lookup_snoc {A} (l : list A) (x : A) : (l ++ [x]) !! length l = Some x.
Proof. by rewrite lookup_app_r, Nat.sub_diag by lia. Qed.

Lemma insert_snoc {A} (l : list A) (x y : A) :
  <[length l := y]> (l ++ [x]) = l ++ [y].
Proof. by rewrite insert_app_r_alt, Nat.sub_diag by lia. Qed.

Lemma deref_insert {A} (h : list A) (a : nat) (j x : A) :
  h !! a = Some j -> <[a := x]> h !! a = Some x.
Proof. intros H. apply list_lookup_insert_eq. by eapply lookup_lt_Some. Qed.

Lemma lookup_app_plus {A} (l1 l2 : list A) (k : nat) :
  (l1 ++ l2) !! (length l1 + k) = l2 !! k.
Proof. rewrite lookup_app_r by lia. f_equal; lia. Qed.

Lemma lookup_app_0 {A} (l1 l2 : list A) : (l1 ++ l2) !! length l1 = l2 !! 0.
Proof. by rewrite <- (Nat.add_0_r (length l1)), lookup_app_plus. Qed.

Lemma insert_app_plus {A} (l1 l2 : list A) (k : nat) (x : A) :
  <[length l1 + k := x]> (l1 ++ l2) = l1 ++ <[k := x]> l2.
Proof. rewrite insert_app_r_alt by lia. do 2 f_equal; lia. Qed.

Lemma insert_app_0 {A} (l1 l2 : list A) (x : A) :
  <[length l1 := x]> (l1 ++ l2) = l1 ++ <[0 := x]> l2.
Proof. by rewrite <- (Nat.add_0_r (length l1)) at 1; rewrite insert_app_plus. Qed.

Lemma earliest_app_inactive ts l i :
  Forall (fun t => t_active t = false) ts ->
  earliest (ts ++ l) i = earliest l (i + length ts).
Proof.
  intros H; revert i; induction H as [|t ts Ht _ IH]; intros i; cbn.
  - by rewrite Nat.add_0_r.
  - rewrite Ht, IH. f_equal; lia.
Qed.

Lemma S_length {A} (l : list A) : S (length l) = length l + 1.
Proof. lia. Qed.

Ltac list_norm :=
  repeat first
    [ rewrite length_app
    | rewrite S_length
    | rewrite <- Nat.add_succ_r
    | rewrite <- app_assoc
    | rewrite <- Nat.add_assoc
    | rewrite lookup_app_plus
    | rewrite lookup_app_0
    | rewrite insert_app_plus
    | rewrite insert_app_0
    | erewrite deref_insert by eassumption
    | erewrite lookup_app_l_Some by eassumption
    | rewrite lookup_app_l
        by (rewrite ?length_insert; eapply lookup_lt_Some; eassumption)
    | rewrite insert_app_l by (eapply lookup_lt_Some; eassumption)
    | rewrite list_insert_insert_eq
    | rewrite app_nil_r
    | rewrite Nat.eqb_refl
    | rewrite Nat.max_r by lia
    | rewrite earliest_app_inactive by assumption
    | rewrite earliest_inactive by assumption
    | rewrite (proj2 (Nat.leb_le _ _)) by lia
    | rewrite (proj2 (Nat.leb_gt _ _)) by lia ].

(** Rewriting with what is known of the job, of the task and of the
    branch conditions. *)
Ltac hyp_rw :=
  repeat match goal with
  | H : ?h !! ?a = Some _ |- context [?h !! ?a] => rewrite H
  | H : fn_beh ?f ?k = _ |- context [fn_beh ?f ?k] => rewrite H
  | H : truthy ?x = _ |- context [truthy ?x] => rewrite H
  | H : r_before ?x = _ |- context [r_before ?x] => rewrite H
  | H : r_after ?x = _ |- context [r_after ?x] => rewrite H
  | H : r_onError ?x = _ |- context [r_onError ?x] => rewrite H
  | H : ?s <> running |- context [decide (?s = running)] =>
      rewrite (decide_False (P := s = running)) by exact H
  | H : ?s = running |- context [decide (?s = running)] =>
      rewrite (decide_True (P := s = running)) by exact H
  end.

(** Unfolding of the monad, of the runtime operations, of the scheduler
    and of the projections of the world. *)
Ltac ev :=
  unfold exec;
  cbv beta iota zeta delta
    [bind ret get new_promise settle subscribe then_ catch_ finally_
     await deref assign alloc set_status call_info call_error add_timer
     setTimeout setInterval clearTimer call_task emit set_heap set_promises
     set_timers set_micro set_calls set_timeouts set_now
     invoke after_do sequence resume tick startJob fail called
     apply react fire rearmed stopped state_of
     now heap promises timers micro calls timeouts log].

Ltac run_sym := repeat (progress (hyp_rw; ev; cbn; list_norm)).

(** Evaluation of a term in place, and of the innermost turn of the loop. *)
Ltac eval_term t :=
  let T := type of t in
  let X := fresh "X" in
  let E := fresh "E" in
  evar (X : T);
  assert (E : t = X);
  [ run_sym; subst X; reflexivity | rewrite E; subst X; clear E ].

Ltac step_sym :=
  match goal with
  | |- context [step (Build_World ?a ?b ?c ?d ?e ?f ?g ?h)] =>
      let X := fresh "X" in
      let E := fresh "E" in
      evar (X : World);
      assert (E : step (Build_World a b c d e f g h) = X);
      [ unfold step; run_sym; subst X; reflexivity
      | rewrite E; subst X; clear E ]
  end.

(** Closing a goal [idle w] on an evaluated world. *)
Ltac finish_idle :=
  unfold idle; run_sym; split; [done|];
  first [ assumption | apply Forall_app; split; [assumption|by repeat constructor] ].

(** C1. With a timeout configured, a task that rejects before the deadline
    is not routed anywhere: whether [onError] is supplied or not, the
    promise returned by the runnable stays pending for ever, the status
    stays ['running'] and is never set to ['error'], and [onError] is never
    called; the deadline timer is cleared and nothing is left to run. *)
Theorem task_failure_under_timeout_is_lost (onError : option ErrorFn) (n : nat) :
  let out := (guarded_call onError).1 in
  let w := steps (3 + n) (guarded_call onError).2 in
  state_of out w = Some None /\
  status <$> heap w !! 0 = Some running /\
  log w = [(0, EvStatus 0 running); (0, EvCall 0 0)] /\
  now w = 10 /\
  idle w.
Proof.
  cbn zeta. rewrite steps_add.
  assert (Hi : idle (steps 3 (guarded_call onError).2)).
  { split; [reflexivity|]. vm_compute. repeat constructor. }
  rewrite (steps_idle _ _ Hi).
  repeat split; try reflexivity; apply Hi.
Qed.

(** ** prepare: the overlap check *)

(** C3. A call of the runnable made while [job.status] is ['running'] does
    not call the task (no timer, no call counted, no status written): it
    constructs a [PreviousExecutionNotCompleteError] with the job's name
    and the status read, ['running'], and either hands it to [onError] and
    returns a fulfilled promise, or returns a promise rejected with it.
    Any other status (['error'], ['pending'], unset) lets the call through:
    the status is set to ['running'] and the task is called. *)
Theorem overlap_check (r : Runnable) (w : World) (job : Job) :
  heap w !! r_job r = Some job ->
  let out := (invoke r w).1 in
  let w' := (invoke r w).2 in
  match status job with
  | running =>
      let err := PreviousExecutionNotCompleteError (name job) running ""%string in
      calls w' = calls w /\ timers w' = timers w /\ micro w' = micro w /\
      match r_onError r with
      | Some onError =>
          state_of out w' = Some (Some Fulfilled) /\
          log w' = log w ++ [(now w, EvNew err); (now w, EvOnError (info_of job) err)] /\
          heap w' = <[r_job r := with_info job (onError (info_of job) err)]> (heap w)
      | None =>
          state_of out w' = Some (Some (Rejected err)) /\
          log w' = log w ++ [(now w, EvNew err)] /\
          heap w' = heap w
      end
  | _ =>
      calls w' (fn_id (r_doJob r)) = S (calls w (fn_id (r_doJob r))) /\
      status <$> heap w' !! r_job r = Some running /\
      state_of out w' = Some None /\
      log w' = log w ++ opt_event (r_before r) (EvBefore (info_of job)) (now w) ++
               [(now w, EvStatus (r_job r) running);
                (now w, EvCall (fn_id (r_doJob r)) (calls w (fn_id (r_doJob r))))]
  end.
Proof.
  intros Hj. destruct w as [t h ps ts q c tos lg]; cbn in Hj. cbv zeta.
  assert (status job = running \/ status job <> running) as [Hs|Hs]
    by (destruct (status job); auto).
  - rewrite Hs. destruct (r_onError r) as [f|] eqn:?; run_sym; by rewrite Hs.
  - assert (forall (A B : Prop), B ->
      match status job with running => A | _ => B end) as Hm
      by (intros; destruct (status job); done).
    apply Hm; clear Hm.
    destruct (r_before r) as [b|] eqn:?; run_sym;
      (destruct (truthy (timeout job)) eqn:?; run_sym;
       destruct (fn_beh (r_doJob r) (c (fn_id (r_doJob r)))) as [[|d] res|] eqn:?;
       run_sym; done).
Qed.

Lemma round_direct (r : Runnable) (w : World) (job : Job) (d : nat) (res : Result) :
  idle w ->
  heap w !! r_job r = Some job ->
  status job <> running ->
  truthy (timeout job) = None ->
  fn_beh (r_doJob r) (calls w (fn_id (r_doJob r))) = Settles d res ->
  let out := (invoke r w).1 in
  let w' := steps 2 (invoke r w).2 in
  let j1 := with_status (notified (r_before r) job) running in
  out = length (promises w) /\
  idle w' /\
  now w' = now w + d /\
  (exists nps, promises w' = promises w ++ nps) /\
  match res with
  | Fulfilled =>
      state_of out w' = Some (Some Fulfilled) /\
      heap w' = <[r_job r := notified (r_after r) (with_status j1 pending)]> (heap w) /\
      log w' = log w ++ opt_event (r_before r) (EvBefore (info_of job)) (now w) ++
        [(now w, EvStatus (r_job r) running);
         (now w, EvCall (fn_id (r_doJob r)) (calls w (fn_id (r_doJob r))));
         (now w + d, EvStatus (r_job r) pending)] ++
        opt_event (r_after r) (EvAfter (info_of (with_status j1 pending))) (now w + d)
  | Rejected e =>
      state_of out w' =
        Some (Some (match r_onError r with Some _ => Fulfilled | None => Rejected e end)) /\
      heap w' = <[r_job r := informed (r_onError r) e (with_status j1 error)]> (heap w) /\
      log w' = log w ++ opt_event (r_before r) (EvBefore (info_of job)) (now w) ++
        [(now w, EvStatus (r_job r) running);
         (now w, EvCall (fn_id (r_doJob r)) (calls w (fn_id (r_doJob r))));
         (now w + d, EvStatus (r_job r) error)] ++
        opt_event (r_onError r) (EvOnError (info_of (with_status j1 error)) e) (now w + d)
  end.
Proof.
  intros [Hm Hts] Hj Hs Hto Hbeh.
  destruct w as [t h ps ts q c tos lg]; cbn in Hm, Hts, Hj, Hbeh. subst q.
  cbv zeta. cbn [now heap promises log].
  destruct (r_before r) as [b|] eqn:Hb, d as [|d], res as [|e];
    [ destruct (r_after r) as [a|] eqn:Ha | destruct (r_onError r) as [f|] eqn:Hf
    | destruct (r_after r) as [a|] eqn:Ha | destruct (r_onError r) as [f|] eqn:Hf
    | destruct (r_after r) as [a|] eqn:Ha | destruct (r_onError r) as [f|] eqn:Hf
    | destruct (r_after r) as [a|] eqn:Ha | destruct (r_onError r) as [f|] eqn:Hf ];
    (match goal with |- context [invoke ?r ?w] => eval_term (invoke r w) end;
     cbn [fst snd]; rewrite !steps_S, steps_0; step_sym; step_sym).
  all: unfold idle; run_sym.
  all: repeat split; try done; try lia; try (by eexists).
  all: try (apply Forall_app; split; [done|by repeat constructor]).
  all: try (repeat f_equal; lia).
Qed.

(** ** prepare: repeated successful ticks *)

Lemma shape_opt_event {A} (f : option A) (e : Event) (t : nat) (s : Shape) :
  shape (t, e) = s -> shape <$> opt_event f e t = opt_shape f s.
Proof. intros <-. by destruct f. Qed.

Lemma state_of_app p w ps x :
  state_of p w = Some (Some x) ->
  p_state <$> (promises w ++ ps) !! p = Some (Some x).
Proof.
  unfold state_of. intros H.
  destruct (promises w !! p) as [c|] eqn:E; [|done].
  by rewrite (lookup_app_l_Some _ _ _ _ E).
Qed.


(** ** prepare: the deadline *)

(** C4. A job with a timeout, called when it is not marked running, whose
    task is still going when the deadline comes: a [TimeoutError] carrying
    the job's name and the status read at that instant, ['running'], is
    constructed and makes the awaited execution fail; the status is then
    set to ['error'], and the error goes to [onError] (the runnable is
    fulfilled) or, without [onError], rejects the runnable.  The task is
    not stopped: when it settles later, its completion is still delivered
    by the runtime, and neither the job, nor the log, nor the promise of
    the runnable changes any more. *)
Theorem timeout_elapses_first (r : Runnable) (w : World) (job : Job) (T : nat) (o : Outcome) :
  idle w ->
  heap w !! r_job r = Some job ->
  status job <> running ->
  timeout job = Some (S T) ->
  fn_beh (r_doJob r) (calls w (fn_id (r_doJob r))) = o ->
  outlasts (S T) o ->
  let out := (invoke r w).1 in
  let w1 := (invoke r w).2 in
  let w2 := steps 2 w1 in
  let j1 := with_status (notified (r_before r) job) running in
  let err := TimeoutError (name j1) running "timed out"%string in
  now w2 = now w + S T /\
  log w2 = log w ++ opt_event (r_before r) (EvBefore (info_of job)) (now w) ++
    [(now w, EvStatus (r_job r) running);
     (now w, EvCall (fn_id (r_doJob r)) (calls w (fn_id (r_doJob r))));
     (now w + S T, EvNew err);
     (now w + S T, EvStatus (r_job r) error)] ++
    opt_event (r_onError r) (EvOnError (info_of (with_status j1 error)) err) (now w + S T) /\
  heap w2 = <[r_job r := informed (r_onError r) err (with_status j1 error)]> (heap w) /\
  state_of out w2 =
    Some (Some (match r_onError r with Some _ => Fulfilled | None => Rejected err end)) /\
  match o with
  | Settles d res =>
      timers w2 !! (length (timers w) + 1) =
        Some {| t_due := now w + d; t_kind := Once; t_active := true;
                t_fn := Settle (length (promises w) + 2) res |}
  | Never => True
  end /\
  forall m,
    heap (steps m w2) = heap w2 /\
    log (steps m w2) = log w2 /\
    state_of out (steps m w2) = state_of out w2.
Proof.
  intros [Hm Hts] Hj Hs Hto Hbeh Hlate.
  assert (Htr : truthy (timeout job) = Some (S T)) by (by rewrite Hto).
  destruct w as [t h ps ts q c tos lg]; cbn in Hm, Hts, Hj, Hbeh. subst q.
  cbv zeta. cbn [now heap promises timers log].
  destruct o as [[|d] [|e]|]; cbn in Hlate; [lia|lia| | |].
  all: destruct (r_before r) as [b|] eqn:Hb, (r_onError r) as [f|] eqn:Hf.
  all: match goal with |- context [invoke ?r ?w] => eval_term (invoke r w) end;
    cbn [fst snd]; rewrite !steps_S, steps_0; step_sym; step_sym.
  all: repeat match goal with |- _ /\ _ => split end.
  all: try (run_sym; first [done | f_equal; lia]).
  all: intros m.
  9-12: rewrite steps_idle by finish_idle; auto.
  all: destruct m as [|[|[|m]]];
    [ rewrite steps_0; auto
    | rewrite !steps_S, steps_0; step_sym; run_sym; auto
    | rewrite !steps_S, steps_0; step_sym; step_sym; run_sym; auto
    | change (S (S (S m))) with (3 + m);
      rewrite steps_add, !steps_S, steps_0; step_sym; step_sym; step_sym;
      rewrite steps_idle by finish_idle; run_sym; auto ].
Qed.

(** ** prepare: a task failure under a timeout, in general *)

(** A task that rejects before the deadline, on any idle world: the
    failure reaches neither the [catch] block nor the caller. *)
Lemma task_failure_before_deadline_is_lost
    (r : Runnable) (w : World) (job : Job) (T d : nat) (e : Err) :
  idle w ->
  heap w !! r_job r = Some job ->
  status job <> running ->
  timeout job = Some (S T) ->
  fn_beh (r_doJob r) (calls w (fn_id (r_doJob r))) = Settles d (Rejected e) ->
  d < S T ->
  let out := (invoke r w).1 in
  let w' := steps 3 (invoke r w).2 in
  idle w' /\
  state_of out w' = Some None /\
  heap w' = <[r_job r := with_status (notified (r_before r) job) running]> (heap w) /\
  log w' = log w ++ opt_event (r_before r) (EvBefore (info_of job)) (now w) ++
    [(now w, EvStatus (r_job r) running);
     (now w, EvCall (fn_id (r_doJob r)) (calls w (fn_id (r_doJob r))))].
Proof.
  intros [Hm Hts] Hj Hs Hto Hbeh Hlt.
  assert (Htr : truthy (timeout job) = Some (S T)) by (by rewrite Hto).
  destruct w as [t h ps ts q c tos lg]; cbn in Hm, Hts, Hj, Hbeh. subst q.
  cbv zeta. cbn [now heap promises timers log].
  destruct (r_before r) as [b|] eqn:Hb, d as [|d].
  all: match goal with |- context [invoke ?r ?w] => eval_term (invoke r w) end;
    cbn [fst snd]; rewrite !steps_S, steps_0; step_sym; step_sym; step_sym.
  all: repeat match goal with |- _ /\ _ => split end.
  all: try (run_sym; done).
  all: finish_idle.
Qed.

(** ** Relations that every operation respects *)

Create HintDb keeps.

Section Keeps.

(** A relation between the world before and the world after: reflexive,
    transitive, and respected by each way the scheduler and the runtime
    have of changing the world. *)
Variable R : World -> World -> Prop.

Hypothesis R_refl : forall w, R w w.
Hypothesis R_trans : forall w1 w2 w3, R w1 w2 -> R w2 w3 -> R w1 w3.

Hypothesis keeps_emit : forall e, keeps R (emit e).
Hypothesis keeps_set_calls : forall c, keeps R (set_calls c).
Hypothesis keeps_set_timeouts : forall l, keeps R (set_timeouts l).
Hypothesis keeps_set_now : forall t, keeps R (set_now t).
Hypothesis keeps_set_micro : forall q, keeps R (set_micro q).
Hypothesis keeps_set_timers : forall ts, keeps R (set_timers ts).
Hypothesis keeps_new_promise : forall st, keeps R (new_promise st).
Hypothesis keeps_settle : forall p r, keeps R (settle p r).
Hypothesis keeps_subscribe : forall p rx, keeps R (subscribe p rx).
Hypothesis keeps_set_status : forall a s, keeps R (set_status a s).
Hypothesis keeps_call_info : forall ev f a, keeps R (call_info ev f a).
Hypothesis keeps_call_error : forall g a e, keeps R (call_error g a e).
Hypothesis keeps_alloc : forall j, keeps R (alloc j).

Lemma keeps_ret {A} (a : A) : keeps R (ret a).
Proof using R_refl. intros w. apply R_refl. Qed.

Lemma keeps_get {A} (f : World -> A) : keeps R (get f).
Proof using R_refl. intros w. apply R_refl. Qed.

Lemma keeps_bind {A B} (m : M A) (k : A -> M B) :
  keeps R m -> (forall a, keeps R (k a)) -> keeps R (bind m k).
Proof using R_trans.
  intros Hm Hk w. unfold bind. specialize (Hm w).
  destruct (m w) as [a w1]. eapply R_trans; [exact Hm|apply Hk].
Qed.

Lemma keeps_for_each {A} (l : list A) (f : A -> M unit) :
  (forall x, keeps R (f x)) -> keeps R (for_each l f).
Proof using R_refl R_trans.
  intros H. induction l as [|x l IH]; cbn; [apply keeps_ret|].
  apply keeps_bind; [apply H|done].
Qed.

Lemma keeps_map_M {A B} (l : list A) (f : A -> M B) :
  (forall x, keeps R (f x)) -> keeps R (map_M f l).
Proof using R_refl R_trans.
  intros H. induction l as [|x l IH]; cbn; [apply keeps_ret|].
  apply keeps_bind; [apply H|]. intros y.
  apply keeps_bind; [done|]. intros ys. apply keeps_ret.
Qed.

Local Hint Resolve keeps_emit keeps_set_calls keeps_set_timeouts keeps_set_now
  keeps_set_micro keeps_set_timers keeps_new_promise keeps_settle
  keeps_subscribe keeps_set_status keeps_call_info keeps_call_error
  keeps_alloc keeps_get : keeps.

(** Decomposition of an operation into those above. *)
Ltac keeps_step :=
  first
    [ solve [auto with keeps]
    | apply keeps_ret
    | apply keeps_for_each; intros ?
    | apply keeps_map_M; intros ?
    | apply keeps_bind; [|intros ?]
    | match goal with
      | |- keeps _ (match ?x with _ => _ end) => destruct x
      end ].

Ltac keeps_tac := repeat keeps_step.

Lemma keeps_add_timer t : keeps R (add_timer t).
Proof using All. unfold add_timer. keeps_tac. Qed.

Lemma keeps_clearTimer t : keeps R (clearTimer t).
Proof using All. unfold clearTimer. keeps_tac. Qed.

Local Hint Resolve keeps_add_timer keeps_clearTimer : keeps.

Lemma keeps_call_task f : keeps R (call_task f).
Proof using All. unfold call_task. keeps_tac. Qed.

Local Hint Resolve keeps_call_task : keeps.

Lemma keeps_invoke r : keeps R (invoke r).
Proof using All.
  unfold invoke, then_, catch_, finally_, await, setTimeout, deref. keeps_tac.
Qed.

Lemma keeps_after_do r out res : keeps R (after_do r out res).
Proof using All. unfold after_do. keeps_tac. Qed.

Lemma keeps_sequence_from fs i out : keeps R (sequence_from fs i out).
Proof using All. unfold sequence_from, await. keeps_tac. Qed.

Lemma keeps_sequence fs : keeps R (sequence fs).
Proof using All. unfold sequence. pose proof keeps_sequence_from. keeps_tac. Qed.

Lemma keeps_tick job R0 : keeps R (tick job R0).
Proof using All. unfold tick, catch_, deref. keeps_tac. Qed.

Local Hint Resolve keeps_invoke keeps_after_do keeps_sequence_from keeps_tick : keeps.

Lemma keeps_startJob job R0 : keeps R (startJob job R0).
Proof using All. unfold startJob, setInterval, deref. keeps_tac. Qed.

Lemma keeps_fail R0 e : keeps R (fail R0 e).
Proof using All. unfold fail. keeps_tac. Qed.

Local Hint Resolve keeps_startJob keeps_fail : keeps.

Lemma keeps_run jobs : keeps R (run jobs).
Proof using All.
  unfold run, copy, schedule, setTimeout, deref. keeps_tac.
Qed.

Lemma keeps_apply f e : keeps R (apply f e).
Proof using All. unfold apply, deref. destruct f; keeps_tac. Qed.

Lemma keeps_resume k res : keeps R (resume k res).
Proof using All. unfold resume. destruct k; keeps_tac. Qed.

Local Hint Resolve keeps_apply keeps_resume : keeps.

Lemma keeps_react rx res : keeps R (react rx res).
Proof using All. unfold react. destruct rx; keeps_tac. Qed.

Lemma keeps_fire i t : keeps R (fire i t).
Proof using All. unfold fire. keeps_tac. Qed.

Local Hint Resolve keeps_react keeps_fire : keeps.

(** Every turn of the loop respects the relation. *)
Lemma step_keeps w : R w (step w).
Proof using All.
  unfold step. destruct (micro w) as [|[rx res] q] eqn:Hq.
  - destruct (earliest (timers w) 0) as [[i t]|]; [|apply R_refl].
    apply keeps_fire.
  - assert (H : keeps R (set_micro q ;; react rx res)) by keeps_tac.
    apply H.
Qed.

Lemma steps_keep n w : R w (steps n w).
Proof using All.
  induction n as [|n IH]; [apply R_refl|].
  rewrite steps_S. eapply R_trans; [exact IH|apply step_keeps].
Qed.

End Keeps.

(** ** What the scheduler leaves alone in a job *)

Lemma keeps_sched_refl h : keeps_sched h h.
Proof. intros a j H. eauto. Qed.

Lemma keeps_sched_trans h1 h2 h3 :
  keeps_sched h1 h2 -> keeps_sched h2 h3 -> keeps_sched h1 h3.
Proof.
  intros H12 H23 a j H. destruct (H12 a j H) as (j2 & H2 & E2).
  destruct (H23 a j2 H2) as (j3 & H3 & E3). exists j3. split; [done|congruence].
Qed.

Lemma keeps_sched_insert h a x :
  (forall j, h !! a = Some j -> sched x = sched j) ->
  keeps_sched h (<[a := x]> h).
Proof.
  intros Hx b j Hb. destruct (decide (a = b)) as [->|Hne].
  - exists x. split; [|by apply Hx].
    apply list_lookup_insert_eq. by eapply lookup_lt_Some.
  - exists j. by rewrite list_lookup_insert_ne.
Qed.

Lemma keeps_sched_app h l : keeps_sched h (h ++ l).
Proof. intros a j H. exists j. split; [|done]. by apply lookup_app_l_Some. Qed.

Lemma sched_same_heap {A} (m : M A) :
  (forall w, heap (m w).2 = heap w) -> keeps same_sched m.
Proof. intros H w. unfold same_sched. rewrite H. apply keeps_sched_refl. Qed.

Lemma sched_set_status a s : keeps same_sched (set_status a s).
Proof.
  intros w. unfold same_sched, set_status, bind, deref, get, emit, assign, set_heap; cbn.
  apply keeps_sched_insert. intros j ->. done.
Qed.

Lemma sched_call_info ev f a : keeps same_sched (call_info ev f a).
Proof.
  destruct f as [g|]; [|intros w; apply keeps_sched_refl].
  intros w. unfold same_sched, call_info, bind, deref, get, emit, assign, set_heap; cbn.
  apply keeps_sched_insert. intros j ->. done.
Qed.

Lemma sched_call_error g a e : keeps same_sched (call_error g a e).
Proof.
  intros w. unfold same_sched, call_error, bind, deref, get, emit, assign, set_heap; cbn.
  apply keeps_sched_insert. intros j ->. done.
Qed.

Lemma sched_alloc j : keeps same_sched (alloc j).
Proof. intros w. cbn. apply keeps_sched_app. Qed.

Lemma sched_settle p r : keeps same_sched (settle p r).
Proof.
  apply sched_same_heap. intros w. unfold settle, bind, get; cbn.
  destruct (promises w !! p) as [[[r'|] rs]|]; done.
Qed.

Lemma sched_subscribe p rx : keeps same_sched (subscribe p rx).
Proof.
  apply sched_same_heap. intros w. unfold subscribe, bind, get; cbn.
  destruct (promises w !! p) as [[[r'|] rs]|]; done.
Qed.

(** Whatever runs, the scheduling parameters of the jobs stay. *)
Lemma invoke_keeps_sched r w : keeps_sched (heap w) (heap (invoke r w).2).
Proof.
  apply (keeps_invoke same_sched); intros;
    first [ apply keeps_sched_refl | by eapply keeps_sched_trans
          | by apply sched_same_heap | apply sched_settle | apply sched_subscribe
          | apply sched_set_status | apply sched_call_info
          | apply sched_call_error | apply sched_alloc ].
Qed.

Lemma steps_keep_sched n w : keeps_sched (heap w) (heap (steps n w)).
Proof.
  apply (steps_keep same_sched); intros;
    first [ apply keeps_sched_refl | by eapply keeps_sched_trans
          | by apply sched_same_heap | apply sched_settle | apply sched_subscribe
          | apply sched_set_status | apply sched_call_info
          | apply sched_call_error | apply sched_alloc ].
Qed.

(** ** Settled promises *)

Lemma stay_same_promises {A} (m : M A) :
  (forall w, promises (m w).2 = promises w) -> keeps settled_stay m.
Proof. intros H w p r. unfold state_of. by rewrite H. Qed.

Lemma stay_new_promise st : keeps settled_stay (new_promise st).
Proof.
  intros w p r. unfold state_of; cbn. intros H.
  destruct (promises w !! p) as [c|] eqn:E; [|done].
  by rewrite (lookup_app_l_Some _ _ _ _ E).
Qed.

Lemma stay_settle p r : keeps settled_stay (settle p r).
Proof.
  intros w q x. unfold state_of, settle, bind, get; cbn.
  destruct (promises w !! p) as [[[r'|] rs]|] eqn:E; cbn; try done.
  destruct (decide (p = q)) as [->|Hne].
  - by rewrite E.
  - by rewrite list_lookup_insert_ne.
Qed.

Lemma stay_subscribe p rx : keeps settled_stay (subscribe p rx).
Proof.
  intros w q x. unfold state_of, subscribe, bind, get; cbn.
  destruct (promises w !! p) as [[[r'|] rs]|] eqn:E; cbn; try done.
  destruct (decide (p = q)) as [->|Hne].
  - by rewrite E.
  - by rewrite list_lookup_insert_ne.
Qed.

(** A promise, once settled, stays as it is at every later turn. *)
Lemma settled_for_good n w p r :
  state_of p w = Some (Some r) -> state_of p (steps n w) = Some (Some r).
Proof.
  revert p r. apply (steps_keep settled_stay); intros;
    first [ by intros ? ? | by (intros ? ? ?; eauto)
          | by apply stay_same_promises
          | apply stay_new_promise | apply stay_settle | apply stay_subscribe
          | idtac ].
  - apply stay_same_promises. intros w0. by destruct f.
Qed.



(** ** sequence *)

Lemma sequence_from_end (doFns : list DoFn) (i out : nat) :
  doFns !! i = None -> sequence_from doFns i out = settle out Fulfilled.
Proof. unfold sequence_from. by intros ->. Qed.

Lemma sequence_from_next (doFns : list DoFn) (i out : nat) (f : DoFn) :
  doFns !! i = Some f ->
  sequence_from doFns i out =
    (let* p := call_task f in await p (NextFn doFns (S i) out)).
Proof. unfold sequence_from. by intros ->. Qed.

Lemma sequence_from_spec (rest pre : list DoFn) (out N : nat) (w : World) :
  idle w ->
  promises w !! out = Some {| p_state := None; p_reactions := [] |} ->
  2 * length rest <= N ->
  let w' := steps N (exec (sequence_from (pre ++ rest) (length pre) out) w) in
  idle w' /\
  log w' = log w ++ (sequence_spec rest (calls w) (now w)).1 /\
  state_of out w' = Some (sequence_spec rest (calls w) (now w)).2.
Proof.
  revert pre N w. induction rest as [|f rest IH]; intros pre N w Hi Hout HN; cbv zeta.
  - rewrite sequence_from_end
      by (apply lookup_ge_None; rewrite length_app; cbn; lia).
    destruct Hi as [Hm Hts].
    destruct w as [t h ps ts q c tos lg]; cbn in Hm, Hts, Hout; subst q.
    assert (Hidle : idle (exec (settle out Fulfilled)
      {| now := t; heap := h; promises := ps; timers := ts; micro := [];
         calls := c; timeouts := tos; log := lg |})).
    { unfold idle. run_sym. done. }
    rewrite steps_idle by done. split; [done|].
    run_sym. done.
  - rewrite (sequence_from_next _ _ _ f) by (by apply list_lookup_middle).
    assert (Hnext : forall w1, idle w1 ->
      promises w1 !! out = Some {| p_state := None; p_reactions := [] |} ->
      forall N1, 2 * length rest <= N1 ->
      let w' := steps N1 (sequence_from (pre ++ f :: rest) (length pre + 1) out w1).2 in
      idle w' /\
      log w' = log w1 ++ (sequence_spec rest (calls w1) (now w1)).1 /\
      state_of out w' = Some (sequence_spec rest (calls w1) (now w1)).2).
    { intros w1 H1 H2 N1 H3.
      pose proof (IH (pre ++ [f]) N1 w1 H1 H2 H3) as H.
      by rewrite <- app_assoc, length_app in H. }
    clear IH.
    destruct Hi as [Hm Hts].
    destruct w as [t h ps ts q c tos lg]; cbn in Hm, Hts, Hout; subst q.
    cbn [now calls log sequence_spec].
    destruct (fn_beh f (c (fn_id f))) as [[|d] [|e]|] eqn:Hbeh.
    + (* settled and fulfilled at once *)
      destruct N as [|N]; [cbn in HN; lia|]. rewrite steps_S_inner.
      eval_term (exec (let* p := call_task f in
                       await p (NextFn (pre ++ f :: rest) (S (length pre)) out))
        {| now := t; heap := h; promises := ps; timers := ts; micro := [];
           calls := c; timeouts := tos; log := lg |}).
      step_sym.
      match goal with |- context [sequence_from _ _ _ ?W] =>
        destruct (Hnext W) with (N1 := N) as (H1 & H2 & H3)
      end; [by split| cbn; by list_norm | cbn in HN; lia |].
      cbn [now calls log] in H2, H3.
      rewrite Nat.add_0_r. split; [done|]. split; [|done].
      by rewrite H2, <- app_assoc.
    + (* settled and rejected at once *)
      destruct N as [|N]; [cbn in HN; lia|]. rewrite steps_S_inner.
      eval_term (exec (let* p := call_task f in
                       await p (NextFn (pre ++ f :: rest) (S (length pre)) out))
        {| now := t; heap := h; promises := ps; timers := ts; micro := [];
           calls := c; timeouts := tos; log := lg |}).
      step_sym. rewrite steps_idle by finish_idle.
      split; [finish_idle|]. run_sym. done.
    + (* fulfilled later *)
      destruct N as [|[|N]]; [cbn in HN; lia|cbn in HN; lia|].
      rewrite !steps_S_inner.
      eval_term (exec (let* p := call_task f in
                       await p (NextFn (pre ++ f :: rest) (S (length pre)) out))
        {| now := t; heap := h; promises := ps; timers := ts; micro := [];
           calls := c; timeouts := tos; log := lg |}).
      step_sym. step_sym.
      match goal with |- context [sequence_from _ _ _ ?W] =>
        destruct (Hnext W) with (N1 := N) as (H1 & H2 & H3)
      end; [finish_idle| cbn; by list_norm | cbn in HN; lia |].
      cbn [now calls log] in H2, H3.
      split; [done|]. split; [|done].
      by rewrite H2, <- app_assoc.
    + (* rejected later *)
      destruct N as [|[|N]]; [cbn in HN; lia|cbn in HN; lia|].
      rewrite !steps_S_inner.
      eval_term (exec (let* p := call_task f in
                       await p (NextFn (pre ++ f :: rest) (S (length pre)) out))
        {| now := t; heap := h; promises := ps; timers := ts; micro := [];
           calls := c; timeouts := tos; log := lg |}).
      step_sym. step_sym. rewrite steps_idle by finish_idle.
      split; [finish_idle|]. run_sym. done.
    + (* never settled *)
      eval_term (exec (let* p := call_task f in
                       await p (NextFn (pre ++ f :: rest) (S (length pre)) out))
        {| now := t; heap := h; promises := ps; timers := ts; micro := [];
           calls := c; timeouts := tos; log := lg |}).
      rewrite steps_idle by finish_idle.
      split; [finish_idle|]. run_sym. done.
Qed.

(** C8. A call of the runnable returned by [sequence(...doFns)], on an
    idle loop, does what the specification says: it calls the steps in the
    given order, each one when the one before it has been fulfilled; at the
    first step that fails the composed promise is rejected with that
    step's error, and no later step is called; if a step never settles the
    composed promise stays pending and no later step is called; when all
    steps are fulfilled, and in particular when there is none, the composed
    promise is fulfilled. *)
Theorem sequence_in_order (doFns : list DoFn) (w : World) :
  idle w ->
  let out := (sequence doFns w).1 in
  let w' := steps (2 * length doFns) (sequence doFns w).2 in
  idle w' /\
  log w' = log w ++ (sequence_spec doFns (calls w) (now w)).1 /\
  state_of out w' = Some (sequence_spec doFns (calls w) (now w)).2.
Proof.
  intros [Hm Hts]. cbv zeta.
  destruct w as [t h ps ts q c tos lg]; cbn in Hm, Hts; subst q.
  pose proof (sequence_from_spec doFns [] (length ps) (2 * length doFns)
    {| now := t; heap := h;
       promises := ps ++ [{| p_state := None; p_reactions := [] |}];
       timers := ts; micro := []; calls := c; timeouts := tos; log := lg |}) as H.
  cbv zeta in H. cbn [app length now calls log] in H. unfold exec in H.
  unfold sequence. run_sym.
  destruct (sequence_from doFns 0 (length ps) _) as [[] w2].
  apply H; [by split| cbn; by list_norm | done].
Qed.

(** ** run: what its operations do to a world *)

Lemma settle_exec (p : nat) (r : Result) (w : World) :
  exec (settle p r) w =
    match promises w !! p with
    | Some {| p_state := None; p_reactions := rs |} =>
        {| now := now w; heap := heap w;
           promises := <[p := settled r]> (promises w);
           timers := timers w;
           micro := micro w ++ map (fun rx => (rx, r)) rs;
           calls := calls w; timeouts := timeouts w; log := log w |}
    | _ => w
    end.
Proof.
  destruct w as [t h ps ts q c tos lg]. unfold exec, settle, bind, get; cbn.
  destruct (ps !! p) as [[[r'|] rs]|]; reflexivity.
Qed.

Lemma tick_exec (job R : nat) (w : World) :
  let f := do (default no_job (heap w !! job)) in
  let k := calls w (fn_id f) in
  let np := length (promises w) in
  exec (tick job R) w =
    {| now := now w; heap := heap w;
       promises := promises w ++ tick_promises R np (fn_beh f k);
       timers := timers w ++ tick_timers (now w) np (fn_beh f k);
       micro := micro w ++ tick_micro R np (fn_beh f k);
       calls := called f (calls w);
       timeouts := timeouts w;
       log := log w ++ [(now w, EvTick job); (now w, EvCall (fn_id f) k)] |}.
Proof.
  destruct w as [t h ps ts q c tos lg]. cbv zeta. cbn [now heap promises timers micro calls timeouts log].
  destruct (fn_beh _ _) as [[|d] r|] eqn:Hbeh; run_sym; reflexivity.
Qed.

Lemma startJob_exec (job R : nat) (w : World) :
  let j := default no_job (heap w !! job) in
  let f := do j in
  let k := calls w (fn_id f) in
  let np := length (promises w) in
  let nt := length (timers w) in
  exec (startJob job R) w =
    {| now := now w; heap := heap w;
       promises := promises w ++ tick_promises R np (fn_beh f k);
       timers := timers w ++
         {| t_due := now w + timer_delay (interval j);
            t_kind := Every (timer_delay (interval j));
            t_active := true; t_fn := Tick job R |} ::
         tick_timers (now w) np (fn_beh f k);
       micro := micro w ++ tick_micro R np (fn_beh f k);
       calls := called f (calls w);
       timeouts := timeouts w ++ [nt];
       log := log w ++ [(now w, EvArm job nt); (now w, EvTick job);
                        (now w, EvCall (fn_id f) k)] |}.
Proof.
  destruct w as [t h ps ts q c tos lg]. cbv zeta. cbn [now heap promises timers micro calls timeouts log].
  destruct (fn_beh _ _) as [[|d] r|] eqn:Hbeh; run_sym; reflexivity.
Qed.

Lemma clearTimer_exec (t : nat) (w : World) :
  clearTimer t w =
    (tt, {| now := now w; heap := heap w; promises := promises w;
            timers := stop_one (timers w) t;
            micro := micro w; calls := calls w; timeouts := timeouts w;
            log := log w |}).
Proof.
  destruct w as [t0 h ps ts q c tos lg].
  unfold clearTimer, stop_one, bind, get; cbn. by destruct (ts !! t).
Qed.

Lemma for_each_clear (ids : list nat) (w : World) :
  exec (for_each ids clearTimer) w =
    {| now := now w; heap := heap w; promises := promises w;
       timers := stop_all ids (timers w);
       micro := micro w; calls := calls w; timeouts := timeouts w; log := log w |}.
Proof.
  revert w. induction ids as [|t ids IH]; intros w.
  - by destruct w.
  - cbn [for_each]. unfold exec, bind. rewrite clearTimer_exec.
    unfold exec in IH. by rewrite IH.
Qed.

Lemma fail_exec (R : nat) (e : Err) (w : World) :
  exec (fail R e) w =
    exec (settle R (Rejected e))
      {| now := now w; heap := heap w; promises := promises w;
         timers := stop_all (timeouts w) (timers w);
         micro := micro w; calls := calls w; timeouts := timeouts w;
         log := log w ++ [(now w, EvFail e)] |}.
Proof.
  destruct w as [t h ps ts q c tos lg]. unfold fail, exec, bind, emit, get; cbn.
  pose proof (for_each_clear tos
    {| now := t; heap := h; promises := ps; timers := ts; micro := q;
       calls := c; timeouts := tos; log := lg ++ [(t, EvFail e)] |}) as H.
  unfold exec in H; cbn in H.
  destruct (for_each tos clearTimer _) as [[] w1]; cbn in H. by subst w1.
Qed.

(** What stopping timers keeps of each of them. *)
Lemma stop_one_lookup ts t i tm' :
  stop_one ts t !! i = Some tm' ->
  exists tm, ts !! i = Some tm /\ (tm' = tm \/ tm' = stopped tm).
Proof.
  unfold stop_one. destruct (ts !! t) as [u|] eqn:Hu; [|by eauto].
  destruct (decide (t = i)) as [->|Hne].
  - rewrite list_lookup_insert_eq by (by eapply lookup_lt_Some).
    intros [= <-]. eauto.
  - rewrite list_lookup_insert_ne by done. eauto.
Qed.

Lemma stop_all_lookup ids ts i tm' :
  stop_all ids ts !! i = Some tm' ->
  exists tm, ts !! i = Some tm /\ (tm' = tm \/ tm' = stopped tm).
Proof.
  revert ts. induction ids as [|t ids IH]; intros ts; cbn; [by eauto|].
  intros H. destruct (IH _ H) as (tm1 & H1 & Hor).
  destruct (stop_one_lookup _ _ _ _ H1) as (tm & H0 & Hor0).
  exists tm. split; [done|].
  destruct Hor as [->| ->], Hor0 as [->| ->]; auto.
Qed.

Lemma stop_all_Forall (P : Timer -> Prop) ids ts :
  (forall tm, P tm -> P (stopped tm)) ->
  Forall P ts -> Forall P (stop_all ids ts).
Proof.
  intros Hst Hts. apply Forall_lookup. intros i tm' H.
  destruct (stop_all_lookup _ _ _ _ H) as (tm & H0 & Hor).
  pose proof (Forall_lookup_1 _ _ _ _ Hts H0) as HP.
  destruct Hor as [->| ->]; auto.
Qed.

(** ** run: the invariant of a cycle *)

Lemma timer_ok_stopped R h n0 t : timer_ok R h n0 t -> timer_ok R h n0 (stopped t).
Proof. done. Qed.

Lemma timer_ok_rearmed R h n0 t : timer_ok R h n0 t -> timer_ok R h n0 (rearmed t).
Proof. unfold rearmed. by destruct (t_kind t). Qed.

Lemma settle_inv R h n0 p r w :
  cycle_inv R h n0 w ->
  p <> R \/ r <> Fulfilled ->
  res_ok h n0 r ->
  cycle_inv R h n0 (exec (settle p r) w).
Proof.
  intros Hinv Hp Hr. rewrite settle_exec.
  destruct (promises w !! p) as [[[r'|] rs]|] eqn:Hlk; try done.
  destruct Hinv as [Hh (cR & HR & HnF) Hts Hps Hq].
  pose proof (Forall_lookup_1 _ _ _ _ Hps Hlk) as [Hrs _]; cbn in Hrs.
  split; cbn; try done.
  - destruct (decide (p = R)) as [->|Hne].
    + exists (settled r). split.
      * apply list_lookup_insert_eq. by eapply lookup_lt_Some.
      * cbn. destruct Hp as [|Hp]; [done|]. by intros [= ->].
    + exists cR. by rewrite list_lookup_insert_ne.
  - apply Forall_insert; [done|]. split; cbn; [done|]. by intros ? [= <-].
  - apply Forall_app. split; [done|].
    apply Forall_fmap. eapply Forall_impl; [exact Hrs|]. intros rx Hrx. by split.
Qed.

Lemma exec_bind {A B} (m : M A) (k : A -> M B) (w : World) :
  exec (bind m k) w = exec (k (m w).1) (m w).2.
Proof. unfold exec, bind. by destruct (m w). Qed.

Lemma outcome_res_ok h n0 c k d r :
  n0 <= c ->
  fn_beh (do (default no_job (h !! c))) k = Settles d r ->
  res_ok h n0 r.
Proof.
  intros Hc Hbeh. destruct r as [|e]; [done|].
  destruct (h !! c) as [j|] eqn:Hj; [|done].
  by exists c, j, k, d.
Qed.

Lemma run_promise_lt R h n0 w : cycle_inv R h n0 w -> R < length (promises w).
Proof. intros [_ (c & Hc & _) _ _ _]. by eapply lookup_lt_Some. Qed.

Lemma tick_parts_ok R h n0 c w :
  cycle_inv R h n0 w ->
  n0 <= c ->
  let f := do (default no_job (heap w !! c)) in
  let o := fn_beh f (calls w (fn_id f)) in
  let np := length (promises w) in
  Forall (cell_ok R h n0) (tick_promises R np o) /\
  Forall (timer_ok R h n0) (tick_timers (now w) np o) /\
  Forall (task_ok R h n0) (tick_micro R np o).
Proof.
  intros Hinv Hc. cbv zeta.
  pose proof (run_promise_lt _ _ _ _ Hinv) as HR.
  destruct Hinv as [Hh _ _ _ _]. rewrite Hh.
  destruct (fn_beh _ _) as [[|d] r|] eqn:Hbeh; cbn.
  - pose proof (outcome_res_ok _ _ _ _ _ _ Hc Hbeh) as Hr.
    repeat split; repeat constructor; cbn; try done; try lia.
    by intros ? [= <-].
  - pose proof (outcome_res_ok _ _ _ _ _ _ Hc Hbeh) as Hr.
    repeat split; repeat constructor; cbn; try done; lia.
  - repeat split; repeat constructor; cbn; try done; lia.
Qed.

Lemma tick_inv R h n0 c w :
  cycle_inv R h n0 w -> n0 <= c -> cycle_inv R h n0 (exec (tick c R) w).
Proof.
  intros Hinv Hc. rewrite tick_exec.
  destruct (tick_parts_ok R h n0 c w Hinv Hc) as (Hps & Hts & Hq).
  destruct Hinv as [Hh (cR & HR & HnF) Hts0 Hps0 Hq0].
  split; cbn; try done.
  - exists cR. split; [by apply lookup_app_l_Some|done].
  - by apply Forall_app.
  - by apply Forall_app.
  - by apply Forall_app.
Qed.

Lemma startJob_inv R h n0 c w :
  cycle_inv R h n0 w -> n0 <= c -> cycle_inv R h n0 (exec (startJob c R) w).
Proof.
  intros Hinv Hc. rewrite startJob_exec.
  destruct (tick_parts_ok R h n0 c w Hinv Hc) as (Hps & Hts & Hq).
  destruct Hinv as [Hh (cR & HR & HnF) Hts0 Hps0 Hq0].
  split; cbn; try done.
  - exists cR. split; [by apply lookup_app_l_Some|done].
  - apply Forall_app. split; [done|]. by constructor.
  - by apply Forall_app.
  - by apply Forall_app.
Qed.

Lemma fail_inv R h n0 e w :
  cycle_inv R h n0 w -> job_error h n0 e -> cycle_inv R h n0 (exec (fail R e) w).
Proof.
  intros Hinv He. rewrite fail_exec.
  apply settle_inv; [|by right|done].
  destruct Hinv as [Hh HR Hts0 Hps0 Hq0].
  split; cbn; try done.
  apply stop_all_Forall; [apply timer_ok_stopped|done].
Qed.

Lemma earliest_Some ts i j t :
  earliest ts i = Some (j, t) ->
  exists k, j = i + k /\ ts !! k = Some t /\ t_active t = true.
Proof.
  revert i. induction ts as [|u ts IH]; intros i; cbn; [done|].
  destruct (t_active u) eqn:Hu.
  - destruct (earliest ts (S i)) as [[j' u']|] eqn:He.
    + destruct (t_due u <=? t_due u').
      * intros [= <- <-]. exists 0. by rewrite Nat.add_0_r.
      * intros [= <- <-]. destruct (IH _ He) as (k & -> & Hk & Ha).
        exists (S k). split; [lia|done].
    + intros [= <- <-]. exists 0. by rewrite Nat.add_0_r.
  - intros He. destruct (IH _ He) as (k & -> & Hk & Ha).
    exists (S k). split; [lia|done].
Qed.

(** Every turn of the loop keeps the invariant. *)
Lemma step_inv R h n0 w : cycle_inv R h n0 w -> cycle_inv R h n0 (step w).
Proof.
  intros Hinv. unfold step.
  destruct (micro w) as [|[rx r] q] eqn:Hq.
  - destruct (earliest (timers w) 0) as [[i t]|] eqn:He; [|done].
    destruct (earliest_Some _ _ _ _ He) as (k & -> & Hk & Ha). cbn in *.
    assert (Hok : timer_ok R h n0 t)
      by (destruct Hinv; by eapply Forall_lookup_1).
    assert (Hpre : cycle_inv R h n0
      {| now := Nat.max (now w) (t_due t); heap := heap w; promises := promises w;
         timers := <[k := rearmed t]> (timers w); micro := micro w;
         calls := calls w; timeouts := timeouts w; log := log w |}).
    { destruct Hinv as [Hh HR Hts0 Hps0 Hq0]. split; cbn; try done.
      apply Forall_insert; [done|]. by apply timer_ok_rearmed. }
    unfold fire. rewrite !exec_bind. cbn [fst snd get set_now set_timers].
    unfold timer_ok in Hok. destruct (t_fn t) as [| | |c R'|c R'| |p r']; try done; cbn [apply].
    + destruct Hok as [-> Hc]. by apply startJob_inv.
    + destruct Hok as [-> Hc]. by apply tick_inv.
    + destruct Hok as [Hp Hr]. apply settle_inv; [done|left; lia|done].
  - assert (Hok : task_ok R h n0 (rx, r)).
    { destruct Hinv as [_ _ _ _ Hm]. rewrite Hq in Hm. by inversion Hm. }
    assert (Hpre : cycle_inv R h n0
      {| now := now w; heap := heap w; promises := promises w;
         timers := timers w; micro := q;
         calls := calls w; timeouts := timeouts w; log := log w |}).
    { destruct Hinv as [Hh HR Hts0 Hps0 Hq0]. split; cbn; try done.
      rewrite Hq in Hq0. by inversion Hq0. }
    rewrite exec_bind. cbn [fst snd set_micro].
    destruct Hok as [Hrx Hr]; cbn in Hrx, Hr.
    destruct rx as [| f d | |]; try done. destruct f; try done.
    destruct Hrx as [-> Hd]. cbn [react].
    destruct r as [|e]; cbn [apply].
    + apply settle_inv; [done|left; lia|done].
    + rewrite exec_bind. apply settle_inv; [|left; lia|done].
      by apply fail_inv.
Qed.

Lemma steps_inv R h n0 n w : cycle_inv R h n0 w -> cycle_inv R h n0 (steps n w).
Proof.
  intros H. induction n as [|n IH]; [done|].
  rewrite steps_S. by apply step_inv.
Qed.

(** ** run: the working copies *)

Lemma copies_exec (jobs : list nat) (w : World) :
  map_M copy jobs w =
    (seq (length (heap w)) (length jobs),
     {| now := now w; heap := heap w ++ copies_of (heap w) jobs;
        promises := promises w; timers := timers w; micro := micro w;
        calls := calls w; timeouts := timeouts w; log := log w |}).
Proof.
  revert w. induction jobs as [|a l IH]; intros w.
  - destruct w; cbn. by rewrite app_nil_r.
  - destruct w as [t h ps ts q c tos lg].
    cbn [map_M copies_of]. unfold bind at 1. unfold copy at 1.
    unfold bind, deref, get, alloc, set_heap, ret; cbn.
    rewrite IH; cbn. rewrite length_app, <- app_assoc; cbn.
    by rewrite Nat.add_1_r.
Qed.

Lemma copies_of_length h jobs : length (copies_of h jobs) = length jobs.
Proof. revert h; induction jobs as [|a l IH]; intros h; cbn; [done|by rewrite IH]. Qed.

Lemma copies_of_pending h jobs : Forall (fun j => status j = pending) (copies_of h jobs).
Proof.
  revert h; induction jobs as [|a l IH]; intros h; cbn; constructor; [done|apply IH].
Qed.

(** A copy has the fields of the object its reference designates, but
    for the status. *)
Lemma copies_of_lookup h jobs i a j :
  jobs !! i = Some a -> h !! a = Some j ->
  copies_of h jobs !! i = Some (with_status j pending).
Proof.
  revert h i. induction jobs as [|b l IH]; intros h i Hi Ha; [done|].
  destruct i as [|i]; cbn in *.
  - injection Hi as ->. by rewrite Ha.
  - apply IH; [done|]. by apply lookup_app_l_Some.
Qed.

(** The task of a copy is the task of one of the objects of [h], or the
    task of no object. *)
Lemma copies_of_do h jobs c :
  c ∈ copies_of h jobs ->
  do c = do no_job \/ exists j, j ∈ h /\ do c = do j.
Proof.
  revert h. induction jobs as [|a l IH]; intros h; cbn; [by intros ?%elem_of_nil|].
  intros [->|Hc]%elem_of_cons.
  - destruct (h !! a) as [j|] eqn:Ha; cbn; [|by left].
    right. exists j. split; [by eapply list_elem_of_lookup_2|done].
  - destruct (IH _ Hc) as [?|(j & Hj & ?)]; [by left|].
    apply elem_of_app in Hj as [Hj|Hj]; [right; by exists j|].
    apply list_elem_of_singleton in Hj as ->. cbn in *.
    destruct (h !! a) as [j'|] eqn:Ha; cbn in *; [|by left].
    right. exists j'. split; [by eapply list_elem_of_lookup_2|done].
Qed.

(** ** run: what it sets up *)

Lemma schedule_exec (R c : nat) (w : World) :
  exec (schedule R c) w =
    match truthy (defer (default no_job (heap w !! c))) with
    | Some ms =>
        {| now := now w; heap := heap w; promises := promises w;
           timers := timers w ++
             [{| t_due := now w + timer_delay ms; t_kind := Once;
                 t_active := true; t_fn := StartJob c R |}];
           micro := micro w; calls := calls w; timeouts := timeouts w;
           log := log w |}
    | None => exec (startJob c R) w
    end.
Proof.
  destruct w as [t h ps ts q cs tos lg]. unfold schedule.
  rewrite exec_bind. cbn [deref get fst snd heap].
  destruct (truthy _) as [ms|]; [|done]. reflexivity.
Qed.

Lemma schedule_inv R h n0 c w :
  cycle_inv R h n0 w -> n0 <= c -> cycle_inv R h n0 (exec (schedule R c) w).
Proof.
  intros Hinv Hc. rewrite schedule_exec.
  destruct (truthy _) as [ms|]; [|by apply startJob_inv].
  destruct Hinv as [Hh HR Hts0 Hps0 Hq0]. split; cbn; try done.
  apply Forall_app. split; [done|]. by repeat constructor.
Qed.

Lemma for_each_cons {A} (x : A) (l : list A) (f : A -> M unit) (w : World) :
  exec (for_each (x :: l) f) w = exec (for_each l f) (exec (f x) w).
Proof. cbn [for_each]. by rewrite exec_bind. Qed.

Lemma schedule_all_inv R h n0 cs w :
  cycle_inv R h n0 w -> Forall (fun c => n0 <= c) cs ->
  cycle_inv R h n0 (exec (for_each cs (schedule R)) w).
Proof.
  intros Hinv Hcs. revert w Hinv.
  induction Hcs as [|c cs Hc _ IH]; intros w Hinv; [done|].
  rewrite for_each_cons. apply IH. by apply schedule_inv.
Qed.

Lemma run_exec (descs : list Job) (jobs : list nat) :
  run jobs (init_world descs) =
    (0, exec (for_each (seq (length descs) (length jobs)) (schedule 0))
             (copied descs jobs)).
Proof.
  unfold run, bind at 1. cbn [new_promise init_world bind get set_promises ret
    promises length app fst snd].
  unfold bind at 1; cbn [set_timeouts]. unfold bind at 1.
  rewrite copies_exec. cbn [now heap promises timers micro calls timeouts log length].
  unfold bind at 1, exec, copied, unsettled.
  by destruct (for_each _ _ _) as [[] w'].
Qed.

Lemma copied_inv descs jobs :
  cycle_inv 0 (descs ++ copies_of descs jobs) (length descs) (copied descs jobs).
Proof.
  split; cbn; try done.
  - exists (unsettled []). done.
  - by repeat constructor.
Qed.

Lemma seq_ge n m : Forall (fun c => n <= c) (seq n m).
Proof. apply Forall_forall. intros c Hc%elem_of_seq. lia. Qed.

Lemma run_inv descs jobs n :
  cycle_inv 0 (descs ++ copies_of descs jobs) (length descs)
    (steps n (run jobs (init_world descs)).2).
Proof.
  rewrite run_exec. cbn [snd]. apply steps_inv, schedule_all_inv.
  - apply copied_inv.
  - apply seq_ge.
Qed.


(** ** run: how its promise ends *)

Lemma copies_of_sourced descs jobs l prev :
  l ⊆ jobs ->
  Forall (sourced descs jobs) prev ->
  Forall (sourced descs jobs) (copies_of (descs ++ prev) l).
Proof.
  revert prev. induction l as [|a l IH]; intros prev Hl Hprev; cbn; [constructor|].
  assert (Hc : sourced descs jobs
    (with_status (default no_job ((descs ++ prev) !! a)) pending)).
  { destruct (decide (a < length descs)) as [Hlt|Hge].
    - rewrite lookup_app_l by done.
      destruct (descs !! a) as [j|] eqn:Ha; [|by left].
      right. exists a, j. split; [|done]. apply Hl. by left.
    - rewrite lookup_app_r by lia.
      destruct (prev !! (a - length descs)) as [j|] eqn:Ha; [|by left].
      exact (Forall_lookup_1 _ _ _ _ Hprev Ha). }
  constructor; [done|].
  rewrite <- app_assoc. apply IH.
  - intros x Hx. apply Hl. by right.
  - apply Forall_app. split; [done|]. by constructor.
Qed.

Lemma job_error_failure descs jobs e :
  job_error (descs ++ copies_of descs jobs) (length descs) e ->
  job_failure descs jobs e.
Proof.
  intros (c & j & k & d & Hc & Hj & Hbeh).
  rewrite lookup_app_r in Hj by done.
  pose proof (copies_of_sourced descs jobs jobs [] (reflexivity _) (Forall_nil_2 _)) as Hsrc.
  rewrite app_nil_r in Hsrc.
  destruct (Forall_lookup_1 _ _ _ _ Hsrc Hj) as [Hno|(a & j' & Ha & Hj' & Hdo)].
  - by rewrite Hno in Hbeh.
  - exists a, j', k, d. by rewrite <- Hdo.
Qed.

Lemma run_nothing (descs : list Job) (n : nat) :
  steps n (run [] (init_world descs)).2 =
    {| now := 0; heap := descs; promises := [unsettled []]; timers := [];
       micro := []; calls := fun _ => 0; timeouts := []; log := [] |}.
Proof.
  rewrite run_exec. cbn. unfold copied; cbn. rewrite app_nil_r.
  by apply steps_idle.
Qed.

(** C10. The promise returned by [run] is never fulfilled: at every turn
    of the loop it is pending, or it is rejected with an error with which
    a call of the task of one of the jobs was rejected.  For the empty
    list there is no timer, and the promise stays pending. *)
Theorem run_never_resolves (descs : list Job) (jobs : list nat) (n : nat) :
  let R := (run jobs (init_world descs)).1 in
  let w := steps n (run jobs (init_world descs)).2 in
  let w' := steps n (run [] (init_world descs)).2 in
  state_of R w <> Some (Some Fulfilled) /\
  (state_of R w = Some None \/
   exists e, state_of R w = Some (Some (Rejected e)) /\ job_failure descs jobs e) /\
  timers w' = [] /\
  state_of (run [] (init_world descs)).1 w' = Some None.
Proof.
  cbv zeta. rewrite run_nothing.
  assert (H0 : (run [] (init_world descs)).1 = 0) by (by rewrite run_exec).
  rewrite H0. clear H0.
  destruct (run_inv descs jobs n) as [_ (c & Hc & HnF) _ Hcells _].
  pose proof (Forall_lookup_1 _ _ _ _ Hcells Hc) as [_ Hres].
  rewrite run_exec in *. cbn [fst snd] in *.
  unfold state_of. rewrite Hc; cbn.
  split; [by intros [= ?]|]. split; [|done].
  destruct (p_state c) as [[|e]|] eqn:Hst; [done| |by left].
  right. exists e. split; [done|].
  apply job_error_failure. by apply (Hres (Rejected e)).
Qed.

(** ** run: deferred and immediate starts *)

Lemma timer_on_time_mono c ms t t' tm :
  t <= t' -> timer_on_time c ms t tm -> timer_on_time c ms t' tm.
Proof. unfold timer_on_time. destruct (t_fn tm); auto. intros ? H ?. specialize (H ltac:(done)). lia. Qed.

Lemma timer_on_time_stopped c ms t tm :
  timer_on_time c ms t tm -> timer_on_time c ms t (stopped tm).
Proof. done. Qed.

Lemma timer_on_time_rearmed c ms t tm :
  timer_on_time c ms t tm -> timer_on_time c ms t (rearmed tm).
Proof.
  unfold rearmed, timer_on_time. destruct (t_kind tm); [done|]. cbn.
  destruct (t_fn tm); auto. intros H ?. specialize (H ltac:(done)). lia.
Qed.

Lemma tick_timers_on_time c ms t np o :
  Forall (timer_on_time c ms t) (tick_timers t np o).
Proof. destruct o as [[|d] r|]; cbn; by repeat constructor. Qed.

Lemma settle_on_time c ms p r w :
  on_time c ms w -> on_time c ms (exec (settle p r) w).
Proof.
  intros H. rewrite settle_exec.
  destruct (promises w !! p) as [[[r'|] rs]|]; done.
Qed.

Lemma fail_on_time c ms R e w :
  on_time c ms w -> on_time c ms (exec (fail R e) w).
Proof.
  intros [Hlog Hts]. rewrite fail_exec. apply settle_on_time.
  split; cbn.
  - apply Forall_app. split; [done|]. constructor; [|done].
    cbn. by intros [|[? ?]].
  - apply stop_all_Forall; [apply timer_on_time_stopped|done].
Qed.

Lemma tick_on_time c ms c' R w :
  on_time c ms w -> (c' = c -> ms <= now w) -> on_time c ms (exec (tick c' R) w).
Proof.
  intros [Hlog Hts] Hc. rewrite tick_exec. split; cbn.
  - apply Forall_app. split; [done|].
    constructor; [|constructor; [|done]]; cbn.
    + intros [[= ->]|[? [=]]]. auto.
    + by intros [|[? ?]].
  - apply Forall_app. split; [done|]. apply tick_timers_on_time.
Qed.

Lemma startJob_on_time c ms c' R w :
  on_time c ms w -> (c' = c -> ms <= now w) -> on_time c ms (exec (startJob c' R) w).
Proof.
  intros [Hlog Hts] Hc. rewrite startJob_exec. split; cbn.
  - apply Forall_app. split; [done|].
    constructor; [|constructor; [|constructor; [|done]]]; cbn.
    + intros [[=]|[? [= -> ?]]]. auto.
    + intros [[= ->]|[? [=]]]. auto.
    + by intros [|[? ?]].
  - apply Forall_app. split; [done|].
    constructor; [exact Hc|]. apply tick_timers_on_time.
Qed.

Lemma timer_delay_ge ms : ms <= timer_delay ms.
Proof. unfold timer_delay. lia. Qed.

Lemma schedule_on_time c ms R c' w :
  deferred (heap w) c ms -> on_time c ms w -> on_time c ms (exec (schedule R c') w).
Proof.
  intros Hd Hw. rewrite schedule_exec.
  destruct (truthy (defer (default no_job (heap w !! c')))) as [ms'|] eqn:Hc'.
  - destruct Hw as [Hlog Hts]. split; cbn; [done|].
    apply Forall_app. split; [done|]. constructor; [|done].
    unfold timer_on_time; cbn. intros ->.
    unfold deferred in Hd. rewrite Hd in Hc'. injection Hc' as <-.
    pose proof (timer_delay_ge ms). lia.
  - apply startJob_on_time; [done|]. intros ->.
    unfold deferred in Hd. by rewrite Hd in Hc'.
Qed.

Lemma heap_schedule R c w : heap (exec (schedule R c) w) = heap w.
Proof.
  rewrite schedule_exec. destruct (truthy _); [done|]. by rewrite startJob_exec.
Qed.

Lemma schedule_all_on_time c ms R cs w :
  deferred (heap w) c ms -> on_time c ms w ->
  on_time c ms (exec (for_each cs (schedule R)) w).
Proof.
  revert w. induction cs as [|c' cs IH]; intros w Hd Hw; [done|].
  rewrite for_each_cons. apply IH.
  - by rewrite heap_schedule.
  - by apply schedule_on_time.
Qed.

Lemma step_on_time R h n0 c ms w :
  cycle_inv R h n0 w -> deferred h c ms ->
  on_time c ms w -> on_time c ms (step w).
Proof.
  intros Hinv Hd Hw. unfold step.
  destruct (micro w) as [|[rx r] q] eqn:Hq.
  - destruct (earliest (timers w) 0) as [[i t]|] eqn:He; [|done].
    destruct (earliest_Some _ _ _ _ He) as (k & -> & Hk & Ha). cbn in *.
    assert (Hok : timer_ok R h n0 t)
      by (destruct Hinv; by eapply Forall_lookup_1).
    assert (Ht : timer_on_time c ms (now w) t)
      by (destruct Hw; by eapply Forall_lookup_1).
    assert (Hpre : on_time c ms
      {| now := Nat.max (now w) (t_due t); heap := heap w; promises := promises w;
         timers := <[k := rearmed t]> (timers w); micro := micro w;
         calls := calls w; timeouts := timeouts w; log := log w |}).
    { destruct Hw as [Hlog Hts]. split; cbn; [done|].
      apply Forall_insert.
      - eapply Forall_impl; [exact Hts|]. intros tm.
        apply timer_on_time_mono. lia.
      - apply timer_on_time_rearmed. eapply timer_on_time_mono; [|exact Ht]. lia. }
    unfold fire. rewrite !exec_bind. cbn [fst snd get set_now set_timers].
    unfold timer_ok in Hok. unfold timer_on_time in Ht.
    destruct (t_fn t) as [| | |c' R'|c' R'| |p r']; try done; cbn [apply].
    + apply startJob_on_time; [done|]. cbn. intros ->. specialize (Ht eq_refl). lia.
    + apply tick_on_time; [done|]. cbn. intros ->. specialize (Ht eq_refl). lia.
    + by apply settle_on_time.
  - assert (Hok : task_ok R h n0 (rx, r)).
    { destruct Hinv as [_ _ _ _ Hm]. rewrite Hq in Hm. by inversion Hm. }
    rewrite exec_bind. cbn [fst snd set_micro].
    destruct Hok as [Hrx Hr]; cbn in Hrx, Hr.
    destruct rx as [| f d | |]; try done. destruct f; try done.
    destruct Hrx as [-> Hd']. cbn [react].
    destruct r as [|e]; cbn [apply].
    + by apply settle_on_time.
    + rewrite exec_bind. apply settle_on_time. by apply fail_on_time.
Qed.

Lemma run_on_time descs jobs c ms n :
  deferred (descs ++ copies_of descs jobs) c ms ->
  on_time c ms (steps n (run jobs (init_world descs)).2).
Proof.
  intros Hd. induction n as [|n IH].
  - rewrite run_exec. cbn [snd steps Nat.iter].
    apply schedule_all_on_time; [done|]. split; cbn; constructor.
  - rewrite steps_S. eapply step_on_time; [apply run_inv|exact Hd|exact IH].
Qed.

(** Scheduling only adds timers and log entries. *)
Lemma schedule_grows R c w :
  let w' := exec (schedule R c) w in
  now w' = now w /\ heap w' = heap w /\
  (exists nts, timers w' = timers w ++ nts) /\
  (exists nl, log w' = log w ++ nl).
Proof.
  cbv zeta. rewrite schedule_exec.
  destruct (truthy _); [|rewrite startJob_exec]; cbn; repeat split; eauto.
  exists []. by rewrite app_nil_r.
Qed.

Lemma schedule_all_grows R cs w :
  let w' := exec (for_each cs (schedule R)) w in
  now w' = now w /\ heap w' = heap w /\
  (exists nts, timers w' = timers w ++ nts) /\
  (exists nl, log w' = log w ++ nl).
Proof.
  revert w. induction cs as [|c cs IH]; intros w; cbv zeta.
  - repeat split; exists []; by rewrite app_nil_r.
  - rewrite for_each_cons.
    destruct (schedule_grows R c w) as (Hn & Hh & [nts Hts] & [nl Hl]).
    destruct (IH (exec (schedule R c) w)) as (Hn' & Hh' & [nts' Hts'] & [nl' Hl']).
    repeat split; [congruence|congruence| |].
    + exists (nts ++ nts'). by rewrite Hts', Hts, app_assoc.
    + exists (nl ++ nl'). by rewrite Hl', Hl, app_assoc.
Qed.

Lemma truthy_delay o ms : truthy o = Some ms -> timer_delay ms = ms.
Proof. destruct o as [[|m]|]; intros [= <-]. unfold timer_delay. lia. Qed.

Lemma schedule_sets_up R c w :
  set_up R c (now w) (default no_job (heap w !! c)) (exec (schedule R c) w).
Proof.
  unfold set_up. rewrite schedule_exec.
  destruct (truthy _) as [ms|] eqn:Hd.
  - exists (length (timers w)). cbn.
    rewrite lookup_app_r, Nat.sub_diag by lia. cbn.
    by rewrite (truthy_delay _ _ Hd).
  - rewrite startJob_exec. exists (length (timers w)). cbn.
    rewrite lookup_app_r, Nat.sub_diag by lia. cbn.
    split; [done|]. split; apply elem_of_app; right.
    + by left.
    + right. by left.
Qed.

Lemma set_up_grows R c t0 j w w' :
  (exists nts, timers w' = timers w ++ nts) ->
  (exists nl, log w' = log w ++ nl) ->
  set_up R c t0 j w -> set_up R c t0 j w'.
Proof.
  intros [nts Hts] [nl Hl]. unfold set_up.
  destruct (truthy _) as [ms|].
  - intros [t Ht]. exists t. rewrite Hts. by apply lookup_app_l_Some.
  - intros (t & Ht & H1 & H2). exists t. rewrite Hts, Hl.
    split; [by apply lookup_app_l_Some|]. split; apply elem_of_app; by left.
Qed.

Lemma schedule_all_sets_up R cs w c :
  c ∈ cs ->
  set_up R c (now w) (default no_job (heap w !! c)) (exec (for_each cs (schedule R)) w).
Proof.
  revert w. induction cs as [|c' cs IH]; intros w; [by intros ?%elem_of_nil|].
  rewrite for_each_cons.
  destruct (schedule_grows R c' w) as (Hn & Hh & _ & _).
  intros [->|Hc]%elem_of_cons.
  - destruct (schedule_all_grows R cs (exec (schedule R c') w)) as (_ & _ & Hts & Hl).
    eapply set_up_grows; [exact Hts|exact Hl|]. apply schedule_sets_up.
  - specialize (IH (exec (schedule R c') w) Hc). by rewrite Hn, Hh in IH.
Qed.


(** The first call goes through; a second call, made at once, is rejected
    with the name of the job and the status ['running']. *)
Lemma overlap_check_witness :
  (heap (init_world [stuck_job]) !! 0 = Some stuck_job /\
   status <$> heap stuck_world !! 0 = Some running) /\
  (heap stuck_world !! 0 = Some (with_status stuck_job running) /\
   state_of (invoke stuck_runnable stuck_world).1 (invoke stuck_runnable stuck_world).2 =
     Some (Some (Rejected
       (PreviousExecutionNotCompleteError "stuck"%string running ""%string))) /\
   heap (invoke stuck_runnable stuck_world).2 = heap stuck_world).
Proof.
  split.
  - split; [reflexivity|].
    exact (proj1 (proj2 (overlap_check stuck_runnable (init_world [stuck_job])
                           stuck_job eq_refl))).
  - split; [reflexivity|].
    pose proof (overlap_check stuck_runnable stuck_world
                  (with_status stuck_job running) eq_refl) as H.
    cbv zeta in H. cbn [status with_status stuck_job r_onError stuck_runnable] in H.
    destruct H as (_ & _ & _ & H).
    change (r_onError stuck_runnable) with (@None ErrorFn) in H.
    cbv iota in H. destruct H as (H1 & _ & H3). split; [exact H1|exact H3].
Defined.

Lemma idle_init jobs : idle (init_world jobs).
Proof. split; [reflexivity|constructor]. Defined.

Lemma timeout_elapses_first_witness :
  (idle (init_world [slow_job]) /\
   heap (init_world [slow_job]) !! 0 = Some slow_job /\
   status slow_job <> running /\
   timeout slow_job = Some 50 /\
   outlasts 50 (Settles 200 Fulfilled)) /\
  let out := (invoke slow_runnable (init_world [slow_job])).1 in
  let w2 := steps 2 (invoke slow_runnable (init_world [slow_job])).2 in
  now w2 = 50 /\
  state_of out w2 =
    Some (Some (Rejected (TimeoutError "slow"%string running "timed out"%string))) /\
  heap w2 = [with_status slow_job error] /\
  timers w2 !! 1 =
    Some {| t_due := 200; t_kind := Once; t_active := true;
            t_fn := Settle 2 Fulfilled |}.
Proof.
  assert (Hs : status slow_job <> running) by discriminate.
  assert (Hl : outlasts 50 (Settles 200 Fulfilled)) by (cbn; lia).
  split; [exact (conj (idle_init _) (conj eq_refl (conj Hs (conj eq_refl Hl))))|].
  pose proof (timeout_elapses_first slow_runnable (init_world [slow_job]) slow_job
    49 (Settles 200 Fulfilled) (idle_init _) eq_refl Hs eq_refl eq_refl Hl) as H.
  cbv zeta in H. destruct H as (H1 & _ & H3 & H4 & H5 & _).
  exact (conj H1 (conj H4 (conj H3 H5))).
Defined.



Lemma sequence_in_order_witness :
  idle (init_world []) /\
  let out := (sequence [step_a; step_b; step_c] (init_world [])).1 in
  let w' := steps 6 (sequence [step_a; step_b; step_c] (init_world [])).2 in
  idle w' /\
  log w' = [(0, EvCall 0 0); (10, EvCall 1 0)] /\
  state_of out w' = Some (Some (Rejected boom)).
Proof.
  split; [exact (idle_init _)|].
  exact (sequence_in_order [step_a; step_b; step_c] (init_world []) (idle_init _)).
Defined.

(** ** run: a failure while another job is still deferred *)



(** ** run: the deferred job keeps ticking *)

Lemma ticking_start : ticking 500 650 (steps 6 cycle_AB).
Proof.
  unfold ticking. do 3 (split; [vm_compute; reflexivity|]).
  exists (take 8 (promises (steps 6 cycle_AB))).
  split; [|split]; vm_compute; reflexivity.
Qed.

Lemma ticking_next t d w :
  ticking t d w -> t <= d ->
  ticking d (d + 150) (steps 2 w) /\
  (d, EvTick 3) ∈ log (steps 2 w).
Proof.
  intros (Hn & Hh & Hts & ps & Hps & H0 & Hq) Hle.
  destruct w as [t0 h ps0 ts q c tos lg]; cbn in Hn, Hh, Hts, Hps, Hq. subst.
  rewrite !steps_S, steps_0. unfold unsettled. step_sym. step_sym.
  unfold ticking. run_sym. repeat split.
  - exists (ps ++ [{| p_state := Some Fulfilled; p_reactions := [] |};
                   {| p_state := Some Fulfilled; p_reactions := [] |}]).
    rewrite <- app_assoc. split; [done|]. split; [by apply lookup_app_l_Some|].
    by list_norm.
  - rewrite !elem_of_app. right. by left.
Qed.

Lemma ticking_rejected t d w :
  ticking t d w -> state_of 0 w = Some (Some (Rejected boom)).
Proof.
  intros (_ & _ & _ & ps & Hps & H0 & _). unfold state_of.
  by rewrite Hps, (lookup_app_l_Some _ _ _ _ H0).
Qed.

Lemma ticking_for_ever k :
  ticking (500 + 150 * k) (650 + 150 * k) (steps (6 + 2 * k) cycle_AB) /\
  (500 + 150 * k, EvTick 3) ∈ log (steps (6 + 2 * k) cycle_AB).
Proof.
  induction k as [|k [IH _]].
  - split.
    + replace (500 + 150 * 0) with 500 by lia. replace (650 + 150 * 0) with 650 by lia.
      exact ticking_start.
    + replace (500 + 150 * 0) with 500 by lia. vm_compute.
      do 9 right. by left.
  - replace (6 + 2 * S k) with ((6 + 2 * k) + 2) by lia. rewrite steps_add.
    replace (500 + 150 * S k) with (650 + 150 * k) by lia.
    replace (650 + 150 * S k) with (650 + 150 * k + 150) by lia.
    apply (ticking_next (500 + 150 * k)); [exact IH|lia].
Qed.

(** C2. When the third tick of A fails (fifth turn of the loop), the cycle
    is rejected with that error and the interval of A is stopped, but the
    timeout that is to start B is still armed: it is not in [timeouts].
    At 500 ms B is started, its interval is armed, and B is ticked at 500
    and at 650, after the failure; its interval timer stays active, and B
    is ticked every 150 ms for ever while the cycle stays rejected. *)
Theorem deferred_job_survives_the_failure :
  let failed := steps 5 cycle_AB in
  let later := steps 9 cycle_AB in
  state_of 0 failed = Some (Some (Rejected boom)) /\
  log failed =
    [(0, EvArm 2 0); (0, EvTick 2); (0, EvCall 0 0);
     (100, EvTick 2); (100, EvCall 0 1);
     (200, EvTick 2); (200, EvCall 0 2); (200, EvFail boom)] /\
  timeouts failed = [0] /\
  timers failed =
    [{| t_due := 300; t_kind := Every 100; t_active := false; t_fn := Tick 2 0 |};
     {| t_due := 500; t_kind := Once; t_active := true; t_fn := StartJob 3 0 |}] /\
  log later = log failed ++
    [(500, EvArm 3 2); (500, EvTick 3); (500, EvCall 1 0);
     (650, EvTick 3); (650, EvCall 1 1)] /\
  timers later !! 2 =
    Some {| t_due := 800; t_kind := Every 150; t_active := true; t_fn := Tick 3 0 |} /\
  forall k,
    state_of 0 (steps (6 + 2 * k) cycle_AB) = Some (Some (Rejected boom)) /\
    (500 + 150 * k, EvTick 3) ∈ log (steps (6 + 2 * k) cycle_AB).
Proof.
  cbv zeta.
  do 6 (split; [vm_compute; reflexivity|]).
  intros k. destruct (ticking_for_ever k) as [H1 H2].
  split; [exact (ticking_rejected _ _ _ H1)|exact H2].
Qed.

(** ** prepare: what a call does when the task settles first *)

(** X1. Without timeout, a task that rejects: the status is set to ['error'],
    then the error goes to [onError], called once, and the runnable is
    fulfilled, or, without [onError], the runnable is rejected with the
    error of the task.  Nothing is left to run afterwards. *)
Theorem task_failure_is_routed (r : Runnable) (w : World) (job : Job) (d : nat) (e : Err) :
  idle w ->
  heap w !! r_job r = Some job ->
  status job <> running ->
  truthy (timeout job) = None ->
  fn_beh (r_doJob r) (calls w (fn_id (r_doJob r))) = Settles d (Rejected e) ->
  let out := (invoke r w).1 in
  let w' := steps 2 (invoke r w).2 in
  let j1 := with_status (with_status (notified (r_before r) job) running) error in
  idle w' /\
  now w' = now w + d /\
  state_of out w' =
    Some (Some (match r_onError r with Some _ => Fulfilled | None => Rejected e end)) /\
  heap w' = <[r_job r := informed (r_onError r) e j1]> (heap w) /\
  log w' = log w ++ opt_event (r_before r) (EvBefore (info_of job)) (now w) ++
    [(now w, EvStatus (r_job r) running);
     (now w, EvCall (fn_id (r_doJob r)) (calls w (fn_id (r_doJob r))));
     (now w + d, EvStatus (r_job r) error)] ++
    opt_event (r_onError r) (EvOnError (info_of j1) e) (now w + d).
Proof.
  intros Hi Hj Hs Hto Hbeh.
  pose proof (round_direct r w job d (Rejected e) Hi Hj Hs Hto Hbeh) as H.
  cbv zeta in *. tauto.
Qed.


(** ** prepare: two calls in a row *)

(** X3. A second call of the runnable made straight after the first, which was
    let through: it is refused, whatever [before] did and whatever the task
    does.  The task is not called a second time and no timer is created;
    the error carries the name the job has by then and ['running']. *)
Theorem second_call_is_refused (r : Runnable) (w : World) (job : Job) :
  heap w !! r_job r = Some job ->
  status job <> running ->
  let w1 := (invoke r w).2 in
  let out := (invoke r w1).1 in
  let w2 := (invoke r w1).2 in
  let j1 := with_status (notified (r_before r) job) running in
  let err := PreviousExecutionNotCompleteError (name j1) running ""%string in
  calls w1 (fn_id (r_doJob r)) = S (calls w (fn_id (r_doJob r))) /\
  calls w2 = calls w1 /\
  timers w2 = timers w1 /\
  state_of out w2 =
    Some (Some (match r_onError r with Some _ => Fulfilled | None => Rejected err end)) /\
  log w2 = log w1 ++ (now w, EvNew err) ::
    opt_event (r_onError r) (EvOnError (info_of j1) err) (now w) /\
  heap w2 = <[r_job r := informed (r_onError r) err j1]> (heap w).
Proof.
  intros Hj Hs.
  destruct w as [t h ps ts q c tos lg]; cbn in Hj.
  cbv zeta.
  destruct (r_before r) as [b|] eqn:Hb, (r_onError r) as [f|] eqn:Hf.
  all: destruct (truthy (timeout (with_status (notified (r_before r) job) running)))
    as [ms|] eqn:Hto; rewrite Hb in Hto; cbn in Hto.
  all: destruct (fn_beh (r_doJob r) (c (fn_id (r_doJob r)))) as [[|d] res|] eqn:Hbeh.
  all: match goal with |- context [invoke ?r ?w] => eval_term (invoke r w) end;
    cbn [fst snd].
  all: match goal with |- context [invoke ?r ?w] =>
    let X := fresh "X" in
    let E := fresh "E" in
    evar (X : (nat * World)%type);
    assert (E : invoke r w = X);
    [ repeat (progress (hyp_rw; ev; cbn; list_norm;
        try rewrite (decide_True (P := running = running)) by reflexivity));
      subst X; reflexivity
    | rewrite E; subst X; clear E ]
    end; cbn [fst snd].
  all: repeat match goal with |- _ /\ _ => split end.
  all: run_sym; done.
Qed.

(** ** prepare: after a timeout *)

(** X4. A task that never settles, under a timeout: once the deadline has
    passed and the [TimeoutError] has been handled, the job is marked
    ['error'], which does not hold back the next call.  That call runs the
    task a second time while its first run is still going: the promise of
    the first run is still pending.  ([onError], if any, leaves the status
    as it finds it.) *)
Theorem timed_out_task_is_run_again (r : Runnable) (w : World) (job : Job) (T : nat) :
  idle w ->
  heap w !! r_job r = Some job ->
  status job <> running ->
  timeout job = Some (S T) ->
  fn_beh (r_doJob r) (calls w (fn_id (r_doJob r))) = Never ->
  (forall g i e, r_onError r = Some g -> info_status (g i e) = info_status i) ->
  let w2 := steps 2 (invoke r w).2 in
  let w3 := (invoke r w2).2 in
  let k := calls w (fn_id (r_doJob r)) in
  now w3 = now w + S T /\
  calls w3 (fn_id (r_doJob r)) = S (S k) /\
  status <$> heap w3 !! r_job r = Some running /\
  (now w, EvCall (fn_id (r_doJob r)) k) ∈ log w3 /\
  (now w + S T, EvCall (fn_id (r_doJob r)) (S k)) ∈ log w3 /\
  state_of (length (promises w) + 2) w3 = Some None.
Proof.
  intros [Hm Hts] Hj Hs Hto Hbeh Hon.
  assert (Htr : truthy (timeout job) = Some (S T)) by (by rewrite Hto).
  destruct w as [t h ps ts q c tos lg]; cbn in Hm, Hts, Hj, Hbeh. subst q.
  cbv zeta. cbn [now heap promises timers log calls].
  destruct (r_before r) as [b|] eqn:Hb, (r_onError r) as [f|] eqn:Hf.
  all: match goal with
    | |- context [invoke ?r (Build_World ?a1 ?a2 ?a3 ?a4 ?a5 ?a6 ?a7 ?a8)] =>
        eval_term (invoke r (Build_World a1 a2 a3 a4 a5 a6 a7 a8))
    end;
    cbn [fst snd]; rewrite !steps_S, steps_0; step_sym; step_sym.
  all: destruct (fn_beh (r_doJob r) (S (c (fn_id (r_doJob r))))) as [[|d] res|] eqn:Hbeh2.
  all: match goal with |- context [invoke ?r ?w] =>
    let X := fresh "X" in
    let E := fresh "E" in
    evar (X : (nat * World)%type);
    assert (E : invoke r w = X);
    [ repeat (progress (hyp_rw; ev; cbn; list_norm;
        try match goal with
        | |- context [decide (?s = running)] =>
            rewrite (decide_False (P := s = running))
              by first [discriminate | rewrite (Hon _ _ _ eq_refl); discriminate]
        end;
        unfold called; rewrite ?Nat.eqb_refl; rewrite ?Hbeh2));
      subst X; reflexivity
    | rewrite E; subst X; clear E ]
    end; cbn [fst snd].
  all: repeat match goal with |- _ /\ _ => split end.
  all: try (run_sym; first [done | f_equal; lia]).
  all: try (run_sym; unfold called; rewrite ?Nat.eqb_refl; done).
  all: try (run_sym; rewrite !elem_of_app; cbn;
            repeat (first [left; by repeat constructor | right])).
Qed.

(** ** prepare: a failure of the task under a timeout *)


(** ** run: cancellation when no job is deferred *)

Lemma stop_all_fn ids ts i tm' :
  stop_all ids ts !! i = Some tm' ->
  exists tm, ts !! i = Some tm /\ t_fn tm' = t_fn tm /\
    (t_active tm = false -> t_active tm' = false).
Proof.
  intros H. destruct (stop_all_lookup _ _ _ _ H) as (tm & Htm & [->| ->]);
    exists tm; auto.
Qed.

Lemma stop_all_stops ids ts i tm' :
  i ∈ ids -> stop_all ids ts !! i = Some tm' -> t_active tm' = false.
Proof.
  revert ts. induction ids as [|t ids IH]; intros ts Hi H.
  - by apply elem_of_nil in Hi.
  - cbn in H. destruct (decide (i = t)) as [->|Hne].
    + destruct (stop_all_fn _ _ _ _ H) as (tm & Htm & _ & Hact).
      apply Hact. unfold stop_one in Htm.
      destruct (ts !! t) as [u|] eqn:Hu; [|by rewrite Hu in Htm].
      rewrite list_lookup_insert_eq in Htm by (by eapply lookup_lt_Some).
      by injection Htm as <-.
    + apply elem_of_cons in Hi as [?|Hi]; [done|]. by eapply IH.
Qed.

Lemma state_of_settle R p r w :
  p <> R -> state_of R (exec (settle p r) w) = state_of R w.
Proof.
  intros Hne. rewrite settle_exec. unfold state_of.
  destruct (promises w !! p) as [[[r'|] rs]|]; try done.
  cbn. by rewrite list_lookup_insert_ne.
Qed.

Lemma state_of_grown R w w' nps :
  R < length (promises w) -> promises w' = promises w ++ nps ->
  state_of R w' = state_of R w.
Proof. intros HR Hps. unfold state_of. by rewrite Hps, lookup_app_l. Qed.

Lemma settle_clearable R p r w :
  p <> R -> clearable R w -> clearable R (exec (settle p r) w).
Proof.
  intros Hne [Hl Hs]. split.
  - rewrite settle_exec. destruct (promises w !! p) as [[[r'|] rs]|]; done.
  - intros e. rewrite state_of_settle by done. intros He.
    rewrite settle_exec. destruct (promises w !! p) as [[[r'|] rs]|]; by apply (Hs e).
Qed.

Lemma tick_timers_idle t np o :
  Forall (fun tm => drives (t_fn tm) = false) (tick_timers t np o).
Proof. destruct o as [[|d] r|]; cbn; by repeat constructor. Qed.

Lemma lookup_tick_timers ts t np o i tm :
  (ts ++ tick_timers t np o) !! i = Some tm -> drives (t_fn tm) = true ->
  ts !! i = Some tm.
Proof.
  intros H Hd. apply lookup_app_Some in H as [H|[_ H]]; [done|].
  pose proof (Forall_lookup_1 _ _ _ _ (tick_timers_idle t np o) H) as Hn.
  by rewrite Hn in Hd.
Qed.

Lemma tick_clearable R c w :
  R < length (promises w) ->
  (forall e, state_of R w <> Some (Some (Rejected e))) ->
  clearable R w -> clearable R (exec (tick c R) w).
Proof.
  intros HR Hp [Hl Hs]. split.
  - rewrite tick_exec; cbn. intros i tm H Hd.
    apply (Hl i tm); [|done]. by eapply lookup_tick_timers.
  - intros e He. exfalso. apply (Hp e). rewrite <- He. symmetry.
    eapply state_of_grown; [done|]. by rewrite tick_exec.
Qed.

Lemma startJob_clearable R c w :
  R < length (promises w) ->
  (forall e, state_of R w <> Some (Some (Rejected e))) ->
  clearable R w -> clearable R (exec (startJob c R) w).
Proof.
  intros HR Hp [Hl Hs]. split.
  - rewrite startJob_exec; cbn. intros i tm H Hd.
    apply elem_of_app.
    apply lookup_app_Some in H as [H|[Hge H]]; [left; by eapply Hl|].
    destruct (i - length (timers w)) as [|k] eqn:Hk.
    + right. apply list_elem_of_singleton. lia.
    + cbn in H.
      pose proof (Forall_lookup_1 _ _ _ _ (tick_timers_idle _ _ _) H) as Hn.
      by rewrite Hn in Hd.
  - intros e He. exfalso. apply (Hp e). rewrite <- He. symmetry.
    eapply state_of_grown; [done|]. by rewrite startJob_exec.
Qed.

Lemma fail_clearable R e w : clearable R w -> clearable R (exec (fail R e) w).
Proof.
  intros [Hl Hs]. rewrite fail_exec.
  set (w1 := Build_World _ _ _ _ _ _ _ _).
  assert (Htm : timers (exec (settle R (Rejected e)) w1) = stop_all (timeouts w) (timers w)).
  { rewrite settle_exec. by destruct (promises w1 !! R) as [[[r'|] rs]|]. }
  assert (Hto : timeouts (exec (settle R (Rejected e)) w1) = timeouts w).
  { rewrite settle_exec. by destruct (promises w1 !! R) as [[[r'|] rs]|]. }
  split.
  - rewrite Htm, Hto. intros i tm H Hd.
    destruct (stop_all_fn _ _ _ _ H) as (tm0 & H0 & Hfn & _).
    apply (Hl i tm0); [done|]. by rewrite <- Hfn.
  - intros _ _. rewrite Htm. apply Forall_lookup. intros i tm H Hd.
    destruct (stop_all_fn _ _ _ _ H) as (tm0 & H0 & Hfn & _).
    eapply stop_all_stops; [|exact H].
    apply (Hl i tm0); [done|]. by rewrite <- Hfn.
Qed.

(** Every turn of the loop of such a cycle leaves it so. *)
Lemma step_clearable R h n0 w :
  cycle_inv R h n0 w -> clearable R w -> clearable R (step w).
Proof.
  intros Hinv Hw. unfold step.
  pose proof (run_promise_lt _ _ _ _ Hinv) as HR.
  destruct (micro w) as [|[rx r] q] eqn:Hq.
  - destruct (earliest (timers w) 0) as [[i t]|] eqn:He; [|done].
    destruct (earliest_Some _ _ _ _ He) as (k & -> & Hk & Ha). cbn in *.
    assert (Hok : timer_ok R h n0 t)
      by (destruct Hinv; by eapply Forall_lookup_1).
    set (w1 := {| now := Nat.max (now w) (t_due t); heap := heap w;
                  promises := promises w;
                  timers := <[k := rearmed t]> (timers w); micro := micro w;
                  calls := calls w; timeouts := timeouts w; log := log w |}).
    assert (Hfn : t_fn (rearmed t) = t_fn t)
      by (unfold rearmed; by destruct (t_kind t)).
    assert (Hpre : clearable R w1).
    { destruct Hw as [Hl Hs]. split; cbn.
      - intros i tm H Hd. destruct (decide (i = k)) as [->|Hne].
        + apply (Hl k t); [done|].
          rewrite list_lookup_insert_eq in H by (by eapply lookup_lt_Some).
          injection H as <-. by rewrite <- Hfn.
        + rewrite list_lookup_insert_ne in H by done. by eapply Hl.
      - intros e He'. pose proof (Hs e He') as Hall.
        apply Forall_insert; [done|]. rewrite Hfn. intros Hd.
        pose proof (Forall_lookup_1 _ _ _ _ Hall Hk Hd) as Hoff.
        by rewrite Hoff in Ha. }
    assert (Hlive : drives (t_fn t) = true ->
      forall e, state_of R w1 <> Some (Some (Rejected e))).
    { intros Hd e He'. destruct Hw as [_ Hs].
      pose proof (Forall_lookup_1 _ _ _ _ (Hs e He') Hk Hd) as Hoff.
      by rewrite Hoff in Ha. }
    unfold fire. rewrite !exec_bind. cbn [fst snd get set_now set_timers].
    fold w1.
    unfold timer_ok in Hok.
    destruct (t_fn t) as [| | |c R'|c R'| |p r'] eqn:Hf; try done; cbn [apply].
    + destruct Hok as [-> Hc]. apply startJob_clearable; auto.
    + destruct Hok as [-> Hc]. apply tick_clearable; auto.
    + destruct Hok as [Hp Hr]. apply settle_clearable; [lia|done].
  - assert (Hok : task_ok R h n0 (rx, r)).
    { destruct Hinv as [_ _ _ _ Hm]. rewrite Hq in Hm. by inversion Hm. }
    assert (Hpre : clearable R
      {| now := now w; heap := heap w; promises := promises w;
         timers := timers w; micro := q;
         calls := calls w; timeouts := timeouts w; log := log w |})
      by (by destruct Hw).
    rewrite exec_bind. cbn [fst snd set_micro].
    destruct Hok as [Hrx Hr]; cbn in Hrx, Hr.
    destruct rx as [| f d | |]; try done. destruct f; try done.
    destruct Hrx as [-> Hd]. cbn [react].
    destruct r as [|e]; cbn [apply].
    + apply settle_clearable; [lia|done].
    + rewrite exec_bind. apply settle_clearable; [lia|]. by apply fail_clearable.
Qed.

Lemma copies_of_undeferred h jobs :
  Forall (fun j => truthy (defer j) = None) h ->
  Forall (fun j => truthy (defer j) = None) (copies_of h jobs).
Proof.
  revert h. induction jobs as [|a l IH]; intros h Hh; cbn; [constructor|].
  assert (Hc : truthy (defer (with_status (default no_job (h !! a)) pending)) = None).
  { destruct (h !! a) as [j|] eqn:Ha; cbn; [|done].
    exact (Forall_lookup_1 _ _ _ _ Hh Ha). }
  constructor; [done|]. apply IH. apply Forall_app. split; [done|]. by constructor.
Qed.

Lemma schedule_all_clearable R cs w :
  R < length (promises w) ->
  state_of R w = Some None ->
  Forall (fun j => truthy (defer j) = None) (heap w) ->
  clearable R w ->
  clearable R (exec (for_each cs (schedule R)) w).
Proof.
  revert w. induction cs as [|c cs IH]; intros w HR Hp Hh Hw; [done|].
  rewrite for_each_cons.
  assert (Hc : truthy (defer (default no_job (heap w !! c))) = None).
  { destruct (heap w !! c) as [j|] eqn:Hj; cbn; [|done].
    exact (Forall_lookup_1 _ _ _ _ Hh Hj). }
  assert (Hs : exec (schedule R c) w = exec (startJob c R) w)
    by (by rewrite schedule_exec, Hc).
  assert (Hps : exists nps, promises (exec (schedule R c) w) = promises w ++ nps).
  { rewrite Hs, startJob_exec. by eexists. }
  destruct Hps as [nps Hps].
  apply IH.
  - rewrite Hps, length_app. lia.
  - by rewrite (state_of_grown R w _ nps).
  - by rewrite heap_schedule.
  - rewrite Hs. apply startJob_clearable; [done| |done].
    intros e. by rewrite Hp.
Qed.

Lemma run_clearable descs jobs n :
  Forall (fun j => truthy (defer j) = None) descs ->
  clearable 0 (steps n (run jobs (init_world descs)).2).
Proof.
  intros Hd. induction n as [|n IH].
  - rewrite run_exec. cbn [snd steps Nat.iter].
    apply schedule_all_clearable; cbn; [lia|done| |].
    + apply Forall_app. split; [done|]. by apply copies_of_undeferred.
    + split; cbn; [done|]. by intros.
  - rewrite steps_S. eapply step_clearable; [apply run_inv|exact IH].
Qed.

(** A turn of the loop of a cycle that has been rejected and in which no
    timer starts or ticks a job: no job is armed or ticked and no task is
    called. *)
Lemma step_quiet R h n0 w :
  cycle_inv R h n0 w ->
  Forall (fun tm => drives (t_fn tm) = true -> t_active tm = false) (timers w) ->
  exists evs, log (step w) = log w ++ evs /\
    Forall (fun ev => activity ev.2 = false) evs.
Proof.
  intros Hinv Hoff. unfold step.
  destruct (micro w) as [|[rx r] q] eqn:Hq.
  - destruct (earliest (timers w) 0) as [[i t]|] eqn:He;
      [|exists []; by rewrite app_nil_r].
    destruct (earliest_Some _ _ _ _ He) as (k & -> & Hk & Ha). cbn in *.
    assert (Hok : timer_ok R h n0 t)
      by (destruct Hinv; by eapply Forall_lookup_1).
    pose proof (Forall_lookup_1 _ _ _ _ Hoff Hk) as Hd.
    unfold fire. rewrite !exec_bind. cbn [fst snd get set_now set_timers].
    unfold timer_ok in Hok.
    destruct (t_fn t) as [| | |c R'|c R'| |p r'] eqn:Hf; try done; cbn [apply].
    + cbn beta in Hd. rewrite Hf in Hd. specialize (Hd eq_refl). by rewrite Hd in Ha.
    + cbn beta in Hd. rewrite Hf in Hd. specialize (Hd eq_refl). by rewrite Hd in Ha.
    + exists []. rewrite app_nil_r. split; [|done].
      rewrite settle_exec. by destruct (_ !! p) as [[[r''|] rs]|].
  - assert (Hok : task_ok R h n0 (rx, r)).
    { destruct Hinv as [_ _ _ _ Hm]. rewrite Hq in Hm. by inversion Hm. }
    rewrite exec_bind. cbn [fst snd set_micro].
    destruct Hok as [Hrx Hr]; cbn in Hrx, Hr.
    destruct rx as [| f d | |]; try done. destruct f; try done.
    destruct Hrx as [-> Hd]. cbn [react].
    destruct r as [|e]; cbn [apply].
    + exists []. rewrite app_nil_r. split; [|done].
      rewrite settle_exec. by destruct (_ !! d) as [[[r''|] rs]|].
    + exists [(now w, EvFail e)]. split; [|by repeat constructor].
      rewrite exec_bind, settle_exec.
      set (w2 := (fail R e _).2).
      assert (Hlog : log w2 = log w ++ [(now w, EvFail e)]).
      { subst w2. change ((fail R e ?x).2) with (exec (fail R e) x).
        rewrite fail_exec, settle_exec. cbn.
        by destruct (_ !! R) as [[[r''|] rs]|]. }
      by destruct (_ !! d) as [[[r''|] rs]|].
Qed.

(** X6. When none of the jobs is deferred, [fail] cancels the whole cycle:
    from the turn of the loop at which the promise of [run] is found
    rejected, it stays rejected with that error, no timer that starts or
    ticks a job is active, and nothing more is armed, ticked or called. *)
Theorem cancellation_is_complete_without_defer
    (descs : list Job) (jobs : list nat) (n m : nat) (e : Err) :
  Forall (fun j => truthy (defer j) = None) descs ->
  let R := (run jobs (init_world descs)).1 in
  let w0 := (run jobs (init_world descs)).2 in
  state_of R (steps n w0) = Some (Some (Rejected e)) ->
  state_of R (steps (n + m) w0) = Some (Some (Rejected e)) /\
  Forall (fun tm => drives (t_fn tm) = true -> t_active tm = false)
    (timers (steps (n + m) w0)) /\
  exists evs, log (steps (n + m) w0) = log (steps n w0) ++ evs /\
    Forall (fun ev => activity ev.2 = false) evs.
Proof.
  intros Hd. cbv zeta.
  assert (HR : (run jobs (init_world descs)).1 = 0) by (by rewrite run_exec).
  rewrite HR. intros He.
  assert (Hst : forall k,
    state_of 0 (steps (n + k) (run jobs (init_world descs)).2) =
      Some (Some (Rejected e))).
  { intros k. rewrite steps_add. by apply settled_for_good. }
  assert (Hoff : forall k,
    Forall (fun tm => drives (t_fn tm) = true -> t_active tm = false)
      (timers (steps (n + k) (run jobs (init_world descs)).2))).
  { intros k. exact (cl_stopped _ _ (run_clearable descs jobs (n + k) Hd) e (Hst k)). }
  split; [apply Hst|]. split; [apply Hoff|].
  induction m as [|m IH].
  - exists []. by rewrite Nat.add_0_r, app_nil_r.
  - destruct IH as (evs & Hlog & Hevs).
    destruct (step_quiet 0 _ _ _ (run_inv descs jobs (n + m)) (Hoff m))
      as (evs' & Hlog' & Hevs').
    exists (evs ++ evs'). split; [|by apply Forall_app].
    by rewrite Nat.add_succ_r, steps_S, Hlog', Hlog, app_assoc.
Qed.

(** ** run: ticks do not wait for one another *)

(** X7. [run] does not look at a task that is still going: the task of a job
    is called again at every interval although none of its earlier calls
    has settled.  For a single job, not deferred, whose task never
    settles: after [k] turns of the loop the time is [k] intervals, the
    task has been called [k + 1] times, the last time at this instant,
    and no promise is settled. *)
Theorem ticks_do_not_wait (descs : list Job) (a : nat) (j : Job) (k : nat) :
  descs !! a = Some j ->
  truthy (defer j) = None ->
  (forall i, fn_beh (do j) i = Never) ->
  let w := steps k (run [a] (init_world descs)).2 in
  let iv := timer_delay (interval j) in
  now w = k * iv /\
  calls w (fn_id (do j)) = S k /\
  (k * iv, EvTick (length descs)) ∈ log w /\
  (k * iv, EvCall (fn_id (do j)) k) ∈ log w /\
  Forall (fun c => p_state c = None) (promises w) /\
  timers w = [{| t_due := S k * iv; t_kind := Every iv; t_active := true;
                 t_fn := Tick (length descs) 0 |}].
Proof.
  intros Ha Hd Hbeh. cbv zeta.
  set (c := length descs). set (iv := timer_delay (interval j)).
  enough (H : let w := steps k (run [a] (init_world descs)).2 in
    heap w = descs ++ [with_status j pending] /\ micro w = [] /\
    now w = k * iv /\
    calls w (fn_id (do j)) = S k /\
    (k * iv, EvTick c) ∈ log w /\
    (k * iv, EvCall (fn_id (do j)) k) ∈ log w /\
    Forall (fun c => p_state c = None) (promises w) /\
    timers w = [{| t_due := S k * iv; t_kind := Every iv; t_active := true;
                   t_fn := Tick c 0 |}]) by (cbv zeta in H; tauto).
  assert (Hc : forall h : list Job,
    h = descs ++ [with_status j pending] ->
    default no_job (h !! c) = with_status j pending).
  { intros h ->. subst c. by rewrite lookup_app_r, Nat.sub_diag by lia. }
  induction k as [|k IH]; cbv zeta.
  - rewrite run_exec. cbn [snd steps Nat.iter seq length for_each].
    rewrite exec_bind. cbn [fst snd ret exec].
    change ((schedule 0 (length descs) (copied descs [a])).2)
      with (exec (schedule 0 c) (copied descs [a])).
    rewrite schedule_exec.
    assert (Hh : heap (copied descs [a]) = descs ++ [with_status j pending])
      by (cbn; by rewrite Ha).
    rewrite (Hc _ Hh). cbn [defer with_status]. rewrite Hd.
    rewrite startJob_exec. cbv zeta. rewrite (Hc _ Hh).
    cbn [do with_status interval]. rewrite Hbeh. fold iv. cbn.
    rewrite Ha. cbn. unfold called. rewrite Nat.eqb_refl.
    repeat split; try done.
    + by repeat constructor.
    + by repeat constructor.
    + by repeat constructor.
    + do 2 f_equal. lia.
  - cbv zeta in IH. destruct IH as (Hh & Hm & Hn & Hcs & _ & _ & Hps & Hts).
    rewrite steps_S.
    destruct (steps k (run [a] (init_world descs)).2) as [t h ps ts q cs tos lg].
    cbn in Hh, Hm, Hn, Hcs, Hps, Hts. subst t q ts.
    unfold step. cbn [micro timers earliest t_active].
    unfold fire. rewrite !exec_bind. cbn [fst snd get set_now set_timers apply
      now heap promises timers micro calls timeouts log t_due t_fn].
    rewrite tick_exec. cbv zeta. cbn [now heap promises timers micro calls timeouts log].
    rewrite (Hc _ Hh). cbn [do with_status]. rewrite Hbeh, Hcs. cbn.
    unfold called. rewrite Nat.eqb_refl, Hcs.
    assert (Hmax : Nat.max (k * iv) (iv + k * iv) = iv + k * iv) by lia.
    rewrite Hmax.
    repeat split; try done.
    + apply elem_of_app. right. by repeat constructor.
    + apply elem_of_app. right. by repeat constructor.
    + apply Forall_app. split; [done|]. by repeat constructor.
    + unfold rearmed. cbn. do 2 f_equal. lia.
Qed.

(** ** Instances of the further statements *)

Lemma task_failure_is_routed_witness :
  (idle (init_world [failing_job]) /\
   heap (init_world [failing_job]) !! r_job failing_runnable = Some failing_job /\
   status failing_job <> running /\
   truthy (timeout failing_job) = None) /\
  let out := (invoke failing_runnable (init_world [failing_job])).1 in
  let w' := steps 2 (invoke failing_runnable (init_world [failing_job])).2 in
  idle w' /\
  now w' = 10 /\
  state_of out w' = Some (Some Fulfilled) /\
  heap w' = [with_status failing_job error] /\
  log w' = [(0, EvStatus 0 running); (0, EvCall 0 0); (10, EvStatus 0 error);
            (10, EvOnError {| info_name := "failing"%string; info_status := error |} boom)].
Proof.
  assert (Hs : status failing_job <> running) by discriminate.
  split; [exact (conj (idle_init _) (conj eq_refl (conj Hs eq_refl)))|].
  exact (task_failure_is_routed failing_runnable (init_world [failing_job])
           failing_job 10 boom (idle_init _) eq_refl Hs eq_refl eq_refl).
Defined.



Lemma timed_out_task_is_run_again_witness :
  (idle (init_world [hung_guarded_job]) /\
   heap (init_world [hung_guarded_job]) !! r_job hung_guarded_runnable =
     Some hung_guarded_job /\
   status hung_guarded_job <> running /\
   timeout hung_guarded_job = Some 50 /\
   (forall g i e, r_onError hung_guarded_runnable = Some g ->
      info_status (g i e) = info_status i)) /\
  let w2 := steps 2 (invoke hung_guarded_runnable (init_world [hung_guarded_job])).2 in
  let w3 := (invoke hung_guarded_runnable w2).2 in
  now w3 = 50 /\
  calls w3 0 = 2 /\
  status <$> heap w3 !! 0 = Some running /\
  (0, EvCall 0 0) ∈ log w3 /\
  (50, EvCall 0 1) ∈ log w3 /\
  state_of 2 w3 = Some None.
Proof.
  assert (Hs : status hung_guarded_job <> running) by discriminate.
  assert (Hon : forall g i e, r_onError hung_guarded_runnable = Some g ->
    info_status (g i e) = info_status i) by (by intros g i e [= <-]).
  split; [exact (conj (idle_init _) (conj eq_refl (conj Hs (conj eq_refl Hon))))|].
  exact (timed_out_task_is_run_again hung_guarded_runnable
           (init_world [hung_guarded_job]) hung_guarded_job 49
           (idle_init _) eq_refl Hs eq_refl eq_refl Hon).
Defined.

Lemma second_call_is_refused_witness :
  (heap (init_world [failing_job]) !! r_job failing_runnable = Some failing_job /\
   status failing_job <> running) /\
  let w1 := (invoke failing_runnable (init_world [failing_job])).2 in
  let out := (invoke failing_runnable w1).1 in
  let w2 := (invoke failing_runnable w1).2 in
  let err := PreviousExecutionNotCompleteError "failing"%string running ""%string in
  calls w1 0 = 1 /\
  calls w2 = calls w1 /\
  timers w2 = timers w1 /\
  state_of out w2 = Some (Some Fulfilled) /\
  log w2 = log w1 ++
    [(0, EvNew err);
     (0, EvOnError {| info_name := "failing"%string; info_status := running |} err)] /\
  heap w2 = [with_status failing_job running].
Proof.
  assert (Hs : status failing_job <> running) by discriminate.
  split; [exact (conj eq_refl Hs)|].
  exact (second_call_is_refused failing_runnable (init_world [failing_job])
           failing_job eq_refl Hs).
Defined.

Lemma cancellation_is_complete_without_defer_witness :
  let R := (run [0; 1] (init_world [jobA; jobC])).1 in
  (Forall (fun j => truthy (defer j) = None) [jobA; jobC] /\
   state_of R (steps 10 cycle_AC) = Some (Some (Rejected boom))) /\
  state_of R (steps (10 + 10) cycle_AC) = Some (Some (Rejected boom)) /\
  Forall (fun tm => drives (t_fn tm) = true -> t_active tm = false)
    (timers (steps (10 + 10) cycle_AC)) /\
  exists evs, log (steps (10 + 10) cycle_AC) = log (steps 10 cycle_AC) ++ evs /\
    Forall (fun ev => activity ev.2 = false) evs.
Proof.
  assert (Hd : Forall (fun j => truthy (defer j) = None) [jobA; jobC])
    by (repeat constructor).
  assert (He : state_of (run [0; 1] (init_world [jobA; jobC])).1
      (steps 10 (run [0; 1] (init_world [jobA; jobC])).2) =
    Some (Some (Rejected boom))) by (vm_compute; reflexivity).
  unfold cycle_AC. split; [exact (conj Hd He)|].
  exact (cancellation_is_complete_without_defer [jobA; jobC] [0; 1] 10 10 boom Hd He).
Defined.

(** ** Regular expressions: the matcher and the strings of a pattern *)

Lemma nullable_lang (r : RegExp.Pattern) :
  RegExp.nullable r = true <-> RegExp.lang r [].
Proof.
  induction r as [| |c|ms|r1 IH1 r2 IH2|r1 IH1 r2 IH2|r IH]; cbn.
  - split; [done|tauto].
  - done.
  - split; [done|by intros [=]].
  - split; [done|]. by intros (c & [=] & _).
  - rewrite andb_true_iff, IH1, IH2. split.
    + intros [H1 H2]. by exists [], [].
    + intros (s1 & s2 & Hs & H1 & H2).
      symmetry in Hs. apply app_eq_nil in Hs as [-> ->]. done.
  - by rewrite orb_true_iff, IH1, IH2.
  - split; [|done]. intros _. by exists [].
Qed.

Lemma lang_star_cons (r : RegExp.Pattern) (c : ascii) (s : list ascii) :
  RegExp.lang (RegExp.Star r) (c :: s) ->
  exists s1 s2, s = s1 ++ s2 /\ RegExp.lang r (c :: s1) /\
    RegExp.lang (RegExp.Star r) s2.
Proof.
  intros (ss & Hs & Hall). revert Hs.
  induction Hall as [|x ss Hx Hall IH]; cbn; [done|].
  destruct x as [|c' x]; cbn.
  - exact IH.
  - intros [= <- ->]. exists x, (mjoin ss). split; [done|]. split; [done|].
    by exists ss.
Qed.

Lemma deriv_lang (r : RegExp.Pattern) (c : ascii) (s : list ascii) :
  RegExp.lang (RegExp.deriv c r) s <-> RegExp.lang r (c :: s).
Proof.
  revert s.
  induction r as [| |d|ms|r1 IH1 r2 IH2|r1 IH1 r2 IH2|r IH]; intros s; cbn.
  - done.
  - split; [done|by intros [=]].
  - destruct (Ascii.eqb c d) eqn:E; cbn.
    + apply Ascii.eqb_eq in E as ->. split; [by intros ->|by intros [= ->]].
    + split; [done|]. intros [= -> ->]. by rewrite Ascii.eqb_refl in E.
  - destruct (RegExp.in_class ms c) eqn:E; cbn.
    + split; [intros ->; by exists c|by intros (c' & [= -> ->] & _)].
    + split; [done|]. intros (c' & [= -> ->] & E'). by rewrite E in E'.
  - assert (Hcat : RegExp.lang (RegExp.Cat (RegExp.deriv c r1) r2) s <->
      exists s1 s2, s = s1 ++ s2 /\ RegExp.lang r1 (c :: s1) /\ RegExp.lang r2 s2).
    { cbn. split; intros (s1 & s2 & Hs & H1 & H2); exists s1, s2;
        (split; [done|]); (split; [|done]); by apply IH1. }
    destruct (RegExp.nullable r1) eqn:En.
    + change (RegExp.lang (RegExp.Or ?a ?b) s) with (RegExp.lang a s \/ RegExp.lang b s).
      rewrite Hcat, IH2. split.
      * intros [(s1 & s2 & -> & H1 & H2)|H2].
        -- by exists (c :: s1), s2.
        -- exists [], (c :: s). split; [done|]. split; [|done].
           by apply nullable_lang.
      * intros (s1 & s2 & Hs & H1 & H2). destruct s1 as [|c' s1]; cbn in Hs.
        -- right. by rewrite Hs.
        -- injection Hs as <- ->. left. by exists s1, s2.
    + rewrite Hcat. split.
      * intros (s1 & s2 & -> & H1 & H2). by exists (c :: s1), s2.
      * intros (s1 & s2 & Hs & H1 & H2). destruct s1 as [|c' s1]; cbn in Hs.
        -- apply nullable_lang in H1. by rewrite H1 in En.
        -- injection Hs as <- ->. by exists s1, s2.
  - by rewrite IH1, IH2.
  - split.
    + intros (s1 & s2 & -> & H1 & ss & -> & Hall).
      exists ((c :: s1) :: ss). split; [done|]. constructor; [|done]. by apply IH.
    + intros H. destruct (lang_star_cons r c s H) as (s1 & s2 & -> & H1 & H2).
      exists s1, s2. split; [done|]. split; [|done]. by apply IH.
Qed.

(** The matcher decides the strings of the pattern. *)
Lemma matches_lang (r : RegExp.Pattern) (s : list ascii) :
  RegExp.matches r s = true <-> RegExp.lang r s.
Proof.
  revert r. induction s as [|c s IH]; intros r; cbn.
  - apply nullable_lang.
  - by rewrite IH, deriv_lang.
Qed.

Lemma lang_star_class (ms : list RegExp.Member) (s : list ascii) :
  RegExp.lang (RegExp.Star (RegExp.Class ms)) s <->
  Forall (fun c => RegExp.in_class ms c = true) s.
Proof.
  cbn. split.
  - intros (ss & -> & Hall). induction Hall as [|x ss Hx _ IH]; cbn; [done|].
    destruct Hx as (c & -> & Hc). by constructor.
  - intros Hall. exists (map (fun c => [c]) s). split.
    + induction s as [|c s IH]; cbn; [done|].
      f_equal. apply IH. by inversion Hall.
    + induction Hall as [|c s Hc _ IH]; cbn; constructor; [by exists c|done].
Qed.

Lemma lang_plus_class (ms : list RegExp.Member) (s : list ascii) :
  RegExp.lang (RegExp.Plus (RegExp.Class ms)) s <->
  s <> [] /\ Forall (fun c => RegExp.in_class ms c = true) s.
Proof.
  unfold RegExp.Plus.
  change (RegExp.lang (RegExp.Cat ?a ?b) s) with
    (exists s1 s2, s = s1 ++ s2 /\ RegExp.lang a s1 /\ RegExp.lang b s2).
  split.
  - intros (s1 & s2 & -> & (c & -> & Hc) & H2). split; [done|].
    constructor; [done|]. by apply lang_star_class.
  - intros [Hne Hall]. destruct s as [|c s]; [done|].
    inversion_clear Hall as [|? ? Hc Hs].
    exists [c], s. split; [done|]. split; [by exists c|]. by apply lang_star_class.
Qed.

(** ** validate: sequences of validation functions *)

Section validate_properties.
Context `{js.Unknown Val}.

(** X8. In a sequence whose first functions return nothing, the next one
    decides: its error is the error of the sequence; if it returns [true]
    the sequence ends there, without error, whatever the functions after
    it would do; otherwise the functions after it are tried. *)
Theorem seq_first_decides (pre post : list (validate.ValidateFn Val))
    (f : validate.ValidateFn Val) (input origInput : Val) :
  Forall (fun g => g input origInput = validate.Void) pre ->
  validate.seq (pre ++ f :: post) input origInput =
    match f input origInput with
    | validate.Throw m => validate.Throw m
    | validate.Truth => validate.Void
    | validate.Void => validate.seq post input origInput
    end.
Proof.
  induction 1 as [|g pre Hg _ IH]; cbn.
  - by destruct (f input origInput).
  - by rewrite Hg.
Qed.

(** X9. A sequence never returns [true], even when one of its functions does:
    used as a member of another sequence, it lets that sequence go on. *)
Theorem seq_returns_no_truth (fs gs : list (validate.ValidateFn Val))
    (input origInput : Val) :
  validate.seq fs input origInput <> validate.Truth /\
  validate.seq (validate.seq fs :: gs) input origInput =
    match validate.seq fs input origInput with
    | validate.Throw m => validate.Throw m
    | _ => validate.seq gs input origInput
    end.
Proof.
  assert (Hn : validate.seq fs input origInput <> validate.Truth).
  { induction fs as [|f fs IH]; cbn; [done|]. by destruct (f input origInput). }
  split; [done|]. cbn. by destruct (validate.seq fs input origInput).
Qed.

(** X10. [optional] ends the sequence it stands in, and no other: for an input
    that is [null] or [undefined], [seq(optional, ...fs, ...gs)] accepts
    whatever [fs] and [gs] are, but [seq(seq(optional, ...fs), ...gs)] is
    [seq(...gs)]. *)
Theorem optional_ends_its_own_seq_only (fs gs : list (validate.ValidateFn Val))
    (input origInput : Val) :
  js.is_nullish input = true ->
  validate.seq (validate.optional :: fs ++ gs) input origInput = validate.Void /\
  validate.seq (validate.seq (validate.optional :: fs) :: gs) input origInput =
    validate.seq gs input origInput.
Proof.
  intros Hn. cbn. unfold validate.optional. by rewrite Hn.
Qed.

(** ** validate: objects *)

Lemma Spec_nested_ind (P : validate.Spec Val -> Prop) :
  (forall f, P (validate.Fn f)) ->
  (forall fields, Forall (fun kf => P kf.2) fields -> P (validate.Obj fields)) ->
  forall spec, P spec.
Proof.
  intros Hf Ho. fix IH 1. intros [f|fields]; [apply Hf|].
  apply Ho. induction fields as [|[k f] l IHl]; constructor; [apply IH|exact IHl].
Qed.

Lemma validate_unfold (fields : list (string * validate.Spec Val))
    (parent : string) (input origInput : Val) :
  validate.validate (validate.Obj fields) parent input origInput =
    if negb (js.is_object input)
    then validate.Raise {| validate.param := ""; validate.message := "no data" |}
    else validate.reduce parent input
           (if js.truthy origInput then origInput else input) fields [].
Proof.
  cbn. destruct (js.is_object input); cbn [negb]; [|done].
  generalize (@nil (string * validate.Data Val)).
  induction fields as [|[k f] ks IH]; intros v; cbn; [done|].
  destruct f as [g|sub].
  - destruct (g _ _); by rewrite ?IH.
  - destruct (validate.validate _ _ _ _); by rewrite ?IH.
Qed.

Lemma keys_assign_new {A} (o : list (string * A)) (k : string) (x : A) :
  k ∉ js.keys o -> js.keys (js.assign o k x) = js.keys o ++ [k].
Proof.
  induction o as [|[k' y] o IH]; cbn; [done|].
  intros Hk. apply not_elem_of_cons in Hk as [Hne Hk].
  destruct (String.eqb k' k) eqn:E.
  - apply String.eqb_eq in E. by subst.
  - cbn. f_equal. by apply IH.
Qed.

Lemma own_assign_eq {A} (o : list (string * A)) (k : string) (x : A) :
  js.own (js.assign o k x) k = Some x.
Proof.
  induction o as [|[k' y] o IH]; cbn.
  - by rewrite String.eqb_refl.
  - destruct (String.eqb k' k) eqn:E; cbn; by rewrite E.
Qed.

Lemma own_assign_ne {A} (o : list (string * A)) (k k' : string) (x : A) :
  k' <> k -> js.own (js.assign o k x) k' = js.own o k'.
Proof.
  intros Hne. induction o as [|[k0 y] o IH]; cbn.
  - destruct (String.eqb k k') eqn:E; [|done].
    apply String.eqb_eq in E. by subst.
  - destruct (String.eqb k0 k) eqn:E; cbn; [|by rewrite IH].
    apply String.eqb_eq in E as ->.
    destruct (String.eqb k k') eqn:E'; [|done].
    apply String.eqb_eq in E'. by subst.
Qed.

Lemma copied_under_own input orig v v' k f :
  js.own v' k = js.own v k ->
  validate.copied_under input orig v k f -> validate.copied_under input orig v' k f.
Proof.
  intros Hv. unfold validate.copied_under. rewrite Hv. done.
Qed.

Lemma reduce_keys parent input orig ks v0 v :
  NoDup (map fst ks) ->
  (forall k, k ∈ map fst ks -> k ∉ js.keys v0) ->
  validate.reduce parent input orig ks v0 = validate.Return v ->
  js.keys v = js.keys v0 ++ map fst ks /\
  (forall k, k ∉ map fst ks -> js.own v k = js.own v0 k) /\
  forall k f, (k, f) ∈ ks -> validate.copied_under input orig v k f.
Proof.
  revert v0. induction ks as [|[k f] ks IH]; intros v0 Hnd Hfresh; cbn.
  - intros [= ->]. rewrite app_nil_r. split; [done|]. split; [done|].
    by intros k f ?%elem_of_nil.
  - cbn in Hnd. apply NoDup_cons in Hnd as [Hk Hnd].
    assert (Hk0 : k ∉ js.keys v0) by (apply Hfresh; cbn; by left).
    assert (Hstep : forall x, validate.reduce parent input orig ks (js.assign v0 k x) =
        validate.Return v ->
      js.own (js.assign v0 k x) k = Some x ->
      js.keys v = js.keys v0 ++ k :: map fst ks /\
      (forall k', k' ∉ k :: map fst ks -> js.own v k' = js.own v0 k') /\
      js.own v k = Some x /\
      forall k' f', (k', f') ∈ ks -> validate.copied_under input orig v k' f').
    { intros x Hred Hown.
      destruct (IH (js.assign v0 k x) Hnd) as (Hkeys & Hrest & Hall); [|done|].
      - intros k' Hk'. rewrite keys_assign_new by done.
        intros [Hin|Hin%list_elem_of_singleton]%elem_of_app.
        + apply (Hfresh k'); [cbn; by right|done].
        + by subst.
      - rewrite keys_assign_new in Hkeys by done.
        rewrite <- app_assoc in Hkeys. split; [done|]. split; [|split; [|done]].
        + intros k' Hk'. apply not_elem_of_cons in Hk' as [Hne Hk'].
          rewrite (Hrest k' Hk'). by apply own_assign_ne.
        + by rewrite (Hrest k Hk). }
    destruct f as [g|sub].
    + destruct (g (js.prop input k) orig) as [| |m] eqn:Hg; [| |done].
      all: intros Hred;
        destruct (Hstep _ Hred (own_assign_eq _ _ _)) as (Hkeys & Hrest & Hown & Hall);
        split; [done|]; split; [done|];
        intros k' f' [[= -> ->]|Hin]%elem_of_cons; [|by apply Hall];
        split; [done|]; intros m; by rewrite Hg.
    + destruct (validate.validate _ k (js.prop input k) orig) as [x|e] eqn:Hsub; [|done].
      intros Hred.
      destruct (Hstep _ Hred (own_assign_eq _ _ _)) as (Hkeys & Hrest & Hown & Hall).
      split; [done|]. split; [done|].
      intros k' f' [[= -> ->]|Hin]%elem_of_cons; [|by apply Hall].
      by exists x.
Qed.


(** X12. The error of [validate] names the key of the validation function that
    threw, preceded by the key of the object that holds it and by nothing
    more: the keys further up do not appear.  An input that is no object,
    at any depth, gives ['no data'] and no name at all. *)
Theorem validate_names_the_last_two_keys
    (spec : validate.Spec Val) (parent : string) (input origInput : Val)
    (e : validate.ValidateError) :
  validate.validate spec parent input origInput = validate.Raise e ->
  e = {| validate.param := ""; validate.message := "no data" |} \/
  validate.param e ∈ validate.params spec parent.
Proof.
  revert parent input origInput.
  induction spec as [f|fields IH] using Spec_nested_ind; intros parent input origInput.
  - cbn. destruct (js.is_object input); cbn; [done|]. intros [= <-]. by left.
  - rewrite validate_unfold.
    destruct (js.is_object input); cbn [negb]; [|intros [= <-]; by left].
    generalize (if js.truthy origInput then origInput else input) as orig.
    generalize (@nil (string * validate.Data Val)) as v.
    cbn [validate.params].
    induction IH as [|[k f] ks Hf _ IHks]; intros v orig; cbn; [done|].
    destruct f as [g|sub].
    + destruct (g _ _) as [| |m].
      * intros Hred. destruct (IHks _ _ Hred) as [?|Hin]; [by left|].
        right. by right.
      * intros Hred. destruct (IHks _ _ Hred) as [?|Hin]; [by left|].
        right. by right.
      * intros [= <-]. right. by left.
    + destruct (validate.validate _ _ _ _) as [x|e'] eqn:Hsub.
      * intros Hred. destruct (IHks _ _ Hred) as [?|Hin]; [by left|].
        right. apply elem_of_app. by right.
      * intros [= ->]. destruct (Hf _ _ _ Hsub) as [?|Hin]; [by left|].
        right. apply elem_of_app. by left.
Qed.


Lemma reduce_app parent input orig (pre post : list (string * validate.Spec Val)) v :
  validate.reduce parent input orig (pre ++ post) v =
    match validate.reduce parent input orig pre v with
    | validate.Return v' => validate.reduce parent input orig post v'
    | validate.Raise e => validate.Raise e
    end.
Proof.
  revert v. induction pre as [|[k f] pre IH]; intros v; cbn [app validate.reduce]; [done|].
  destruct f as [g|sub].
  - destruct (g _ _); by rewrite ?IH.
  - destruct (validate.validate _ _ _ _); by rewrite ?IH.
Qed.

(** X14. [validate] stops at the first key, in the order of the specification,
    whose validation function throws: when the keys before it pass, the
    error names that key and carries that message, whatever the keys after
    it hold. *)
Theorem validate_reports_the_first_failure
    (pre post : list (string * validate.Spec Val)) (k : string)
    (g : validate.ValidateFn Val) (parent : string) (input origInput : Val)
    (v : list (string * validate.Data Val)) (m : string) :
  validate.validate (validate.Obj pre) parent input origInput = validate.Return v ->
  g (js.prop input k) (if js.truthy origInput then origInput else input) =
    validate.Throw m ->
  validate.validate (validate.Obj (pre ++ (k, validate.Fn g) :: post))
    parent input origInput =
    validate.Raise {| validate.param := validate.qualified parent k;
                      validate.message := m |}.
Proof.
  rewrite !validate_unfold. destruct (js.is_object input); cbn [negb]; [|done].
  intros Hpre Hg. rewrite reduce_app, Hpre. cbn [validate.reduce]. by rewrite Hg.
Qed.

End validate_properties.

(** ** validate: strings tried against an expression *)

Lemma test_lang (r : RegExp.Pattern) (s : string) :
  RegExp.test r s = true <-> RegExp.lang r (String.list_ascii_of_string s).
Proof. apply matches_lang. Qed.

Lemma hex_class (c : ascii) :
  RegExp.in_class [RegExp.Range "a" "f"; RegExp.Range "0" "9"] c = true <->
  c ∈ validate.hexdigits.
Proof.
  assert (Hb : RegExp.in_class [RegExp.Range "a" "f"; RegExp.Range "0" "9"] c =
    existsb (Ascii.eqb c) validate.hexdigits)
    by (destruct c as [[] [] [] [] [] [] [] []]; reflexivity).
  rewrite Hb, existsb_exists. split.
  - intros (d & Hd & ->%Ascii.eqb_eq). by apply list_elem_of_In.
  - intros Hc. exists c. split; [by apply list_elem_of_In|apply Ascii.eqb_refl].
Qed.

Lemma lang_two_or_more_class (ms : list RegExp.Member) (s : list ascii) :
  RegExp.lang (RegExp.TwoOrMore (RegExp.Class ms)) s <->
  2 <= length s /\ Forall (fun c => RegExp.in_class ms c = true) s.
Proof.
  unfold RegExp.TwoOrMore.
  change (RegExp.lang (RegExp.Cat ?a ?b) s) with
    (exists s1 s2, s = s1 ++ s2 /\ RegExp.lang a s1 /\ RegExp.lang b s2).
  split.
  - intros (s1 & s2 & -> & (c & -> & Hc) & H2).
    apply (lang_plus_class ms) in H2 as [Hne Hall].
    split; [|by constructor]. destruct s2; [done|cbn; lia].
  - intros [Hlen Hall]. destruct s as [|c [|d s]]; cbn in Hlen; [lia|lia|].
    inversion_clear Hall as [|? ? Hc Hs].
    exists [c], (d :: s). split; [done|]. split; [by exists c|].
    by apply (lang_plus_class ms).
Qed.

Section hex_properties.
Context `{js.Unknown Val}.

(** X15. [hex] accepts the strings made of the characters [0-9] and [a-f] and
    nothing else: the empty string is accepted, an uppercase digit is
    not. *)
Theorem hex_accepts_lowercase_digits (input origInput : Val) :
  validate.hex input origInput = validate.Void <->
  exists s, js.string_of input = Some s /\
    Forall (fun c => c ∈ validate.hexdigits) (String.list_ascii_of_string s).
Proof.
  unfold validate.hex. destruct (js.string_of input) as [s|]; [|split; [done|]].
  - assert (Ht : RegExp.test validate.hexRegexp s = true <->
      Forall (fun c => c ∈ validate.hexdigits) (String.list_ascii_of_string s)).
    { rewrite test_lang. unfold validate.hexRegexp. rewrite lang_star_class.
      apply Forall_iff. intros c. apply hex_class. }
    destruct (RegExp.test validate.hexRegexp s).
    + split; [|done]. intros _. exists s. split; [done|]. by apply Ht.
    + split; [done|]. intros (s' & [= <-] & Hs). by apply Ht in Hs.
  - by intros (s & [=] & _).
Qed.

(** X16. [email] accepts the strings of the form local part, [@], host, dot,
    last label: the local part and the host are not empty, the last label
    has two letters at least and nothing but letters. *)
Theorem email_accepts_addresses (input origInput : Val) :
  validate.email input origInput = validate.Void <->
  exists s, js.string_of input = Some s /\
    validate.address (String.list_ascii_of_string s).
Proof.
  assert (Ht : forall s, RegExp.test validate.emailRegexp s = true <->
    validate.address (String.list_ascii_of_string s)).
  { intros s. rewrite test_lang. generalize (String.list_ascii_of_string s) as l.
    intros l. unfold validate.emailRegexp, validate.address.
    change (RegExp.lang (RegExp.Cat ?a ?b) ?x) with
      (exists s1 s2, x = s1 ++ s2 /\ RegExp.lang a s1 /\ RegExp.lang b s2).
    split.
    - intros (loc & r1 & -> & Hloc & at_ & r2 & -> & Hat & host & r3 & -> & Hhost &
              dot & tld & -> & Hdot & Htld).
      apply lang_plus_class in Hloc as [? ?].
      apply lang_plus_class in Hhost as [? ?].
      apply lang_two_or_more_class in Htld as [? ?].
      cbn in Hat, Hdot. subst at_ dot.
      exists loc, host, tld. by repeat split.
    - intros (loc & host & tld & -> & ? & ? & ? & ? & ? & ?).
      exists loc, ("@"%char :: host ++ "."%char :: tld). split; [done|].
      split; [by apply lang_plus_class|].
      exists ["@"%char], (host ++ "."%char :: tld). split; [done|]. split; [done|].
      exists host, ("."%char :: tld). split; [done|].
      split; [by apply lang_plus_class|].
      exists ["."%char], tld. split; [done|]. split; [done|].
      by apply lang_two_or_more_class. }
  unfold validate.email. destruct (js.string_of input) as [s|]; [|split; [done|]].
  - specialize (Ht s). destruct (RegExp.test validate.emailRegexp s).
    + split; [|done]. intros _. exists s. split; [done|]. by apply Ht.
    + split; [done|]. intros (s' & [= <-] & Hs). by apply Ht in Hs.
  - by intros (s & [=] & _).
Qed.

End hex_properties.

(** ** query *)

(** X17. [str] reads what [array] puts first, and [integer] reads what [str]
    reads: of an array, the first element and nothing else. *)
Theorem first_value_is_read `{js.Numbers number}
    (input : query.Input) (min max : option number) :
  query.str input = hd query.Undefined (query.array input None) /\
  query.integer input min max = query.integer (query.str input) min max.
Proof.
  destruct input as [|s|[|s l]|o|[|o l]]; by split.
Qed.

(** X18. [integer] with both bounds, neither of them [NaN]: when [min] is not
    above [max] the result lies between them; when it is, the result is
    [max].  (The numbers other than [NaN] are totally ordered.) *)
Theorem integer_is_clamped `{js.Numbers number}
    (input : query.Input) (lo hi r : number) :
  (forall a b, js.isNaN a = false -> js.isNaN b = false ->
     js.leb a b = false -> js.leb b a = true) ->
  (forall a b c, js.leb a b = true -> js.leb b c = true -> js.leb a c = true) ->
  js.isNaN lo = false ->
  js.isNaN hi = false ->
  query.integer input (Some lo) (Some hi) = Some r ->
  js.isNaN r = false /\
  if js.leb lo hi then js.leb lo r = true /\ js.leb r hi = true else r = hi.
Proof.
  intros Htot Htrans Hlo Hhi.
  assert (Hrefl : forall a, js.isNaN a = false -> js.leb a a = true).
  { intros a Ha. destruct (js.leb a a) eqn:E; [done|].
    by rewrite (Htot a a Ha Ha E) in E. }
  assert (Hs : forall i, query.integer_scalar i (Some lo) (Some hi) = Some r ->
    js.isNaN r = false /\
    if js.leb lo hi then js.leb lo r = true /\ js.leb r hi = true else r = hi).
  { intros [|s|l|o|l]; cbn; try done.
    destruct (js.isNaN (js.parseInt s)) eqn:Hn; [done|].
    unfold js.Math_max, js.Math_min. rewrite Hn, Hlo. cbn.
    destruct (js.leb (js.parseInt s) lo) eqn:E1; rewrite ?Hlo, ?Hn, Hhi; cbn.
    - destruct (js.leb lo hi) eqn:E2; intros [= <-]; auto.
    - pose proof (Htot _ _ Hn Hlo E1) as E1'.
      destruct (js.leb (js.parseInt s) hi) eqn:E3; intros [= <-].
      + split; [done|]. destruct (js.leb lo hi) eqn:E2; [done|].
        by rewrite (Htrans _ _ _ E1' E3) in E2.
      + split; [done|]. destruct (js.leb lo hi); auto. }
  unfold query.integer. destruct (query.is_array input); apply Hs.
Qed.

Lemma includes_elem (arr : list string) (s : string) :
  js.includes arr s = true <-> s ∈ arr.
Proof.
  unfold js.includes. rewrite existsb_exists. split.
  - intros (x & Hx & ->%String.eqb_eq). by apply list_elem_of_In.
  - intros Hs. exists s. split; [by apply list_elem_of_In|apply String.eqb_refl].
Qed.

(** X19. A string or an array is answered from [allow] alone: the sorts
    returned are tuples whose properties are allowed, each read off one of
    the values given, and the default is not used, even when nothing is
    returned. *)
Theorem sorts_are_allowed (input : query.Input) (allow : list string)
    (def : option (list query.Item)) :
  query.is_array input = true \/ (exists s, input = query.String_ s) ->
  query.sorts input allow def = query.sorts input allow None /\
  exists l : list (string * query.Direction),
    query.sorts input allow def = map query.tuple l /\
    Forall (fun s => s.1 ∈ allow /\
      exists v, v ∈ query.array input None /\ s = query.parse (query.as_text v)) l.
Proof.
  intros [Ha|[s ->]].
  - unfold query.sorts, query.array. rewrite Ha. split; [done|].
    eexists. split; [reflexivity|].
    apply Forall_forall. intros s [Hs Hin]%list_elem_of_filter.
    split; [by apply includes_elem|].
    apply list_elem_of_fmap in Hin as (v & -> & Hv).
    apply list_elem_of_filter in Hv as [_ Hv]. by exists v.
  - cbn. split; [done|].
    destruct (js.includes allow (query.parse s).1) eqn:E.
    + exists [query.parse s]. split; [done|]. constructor; [|done].
      split; [by apply includes_elem|]. exists (query.String_ s).
      split; [by left|done].
    + by exists [].
Qed.

Lemma sort_regexp_plain (v : string) :
  query.plain (query.parse v).1 -> RegExp.test query.SORT_REGEXP v = true.
Proof.
  intros [Hne Hall]. apply test_lang. unfold query.SORT_REGEXP.
  change (RegExp.lang (RegExp.Cat ?a ?b) ?x) with
    (exists s1 s2, x = s1 ++ s2 /\ RegExp.lang a s1 /\ RegExp.lang b s2).
  assert (Hp : forall p, p <> ""%string -> String.list_ascii_of_string p <> [])
    by (by intros [|c p]).
  destruct v as [|c v]; [done|].
  destruct (decide (c = "-"%char)) as [->|Hc].
  - cbn in Hne, Hall. exists ["-"%char], (String.list_ascii_of_string v).
    split; [done|]. split; [by left|]. apply lang_plus_class. auto.
  - assert (Hv : query.parse (String c v) = (String c v, query.ASC)).
    { unfold query.parse.
      destruct c as [[] [] [] [] [] [] [] []]; try reflexivity. done. }
    rewrite Hv in Hne, Hall. cbn [fst] in Hne, Hall.
    exists [], (String.list_ascii_of_string (String c v)).
    split; [done|]. split; [by right|]. apply lang_plus_class. auto.
Qed.

(** X20. [SORT_REGEXP] accepts a plain name, or a hyphen and a plain name, and
    nothing else. *)
Theorem sort_regexp_accepts (v : string) :
  RegExp.test query.SORT_REGEXP v = true <->
  query.plain v \/ exists p, v = String "-" p /\ query.plain p.
Proof.
  split.
  - rewrite test_lang. unfold query.SORT_REGEXP.
    change (RegExp.lang (RegExp.Cat ?a ?b) ?x) with
      (exists s1 s2, x = s1 ++ s2 /\ RegExp.lang a s1 /\ RegExp.lang b s2).
    intros (s1 & s2 & Hv & Hopt & [Hne Hall]%lang_plus_class).
    assert (Hstr : forall (p : string) l, String.list_ascii_of_string p = l ->
      l <> [] -> p <> ""%string) by (by intros [|c p] l <-).
    destruct Hopt as [->| ->]; cbn in Hv.
    + right. destruct v as [|c p]; [done|]. cbn in Hv. injection Hv as -> <-.
      exists p. split; [done|]. split; [by eapply Hstr|done].
    + left. subst s2. split; [by eapply Hstr|done].
  - intros [Hp|(p & -> & Hp)].
    + apply sort_regexp_plain. destruct v as [|c v]; [by destruct Hp|].
      destruct (decide (c = "-"%char)) as [->|Hc].
      * destruct Hp as [_ Hall]. cbn in Hall. by inversion_clear Hall.
      * replace (query.parse (String c v)) with (String c v, query.ASC); [done|].
        unfold query.parse.
        destruct c as [[] [] [] [] [] [] [] []]; try reflexivity. done.
    + by apply sort_regexp_plain.
Qed.

(** X21. An array is answered element by element, but only its elements that
    the expression accepts are looked at; a string alone is not tried
    against the expression.  When the allowed names are plain, the
    expression lets through all that would be allowed, and the array is
    answered as its elements are one by one. *)
Theorem sorts_of_an_array (l : list string) (allow : list string)
    (def : option (list query.Item)) :
  query.sorts (query.Strings l) allow def =
    flat_map (fun v =>
      if RegExp.test query.SORT_REGEXP v
      then query.sorts (query.String_ v) allow def else []) l /\
  (Forall query.plain allow ->
   query.sorts (query.Strings l) allow def =
     flat_map (fun v => query.sorts (query.String_ v) allow def) l).
Proof.
  assert (H1 : query.sorts (query.Strings l) allow def =
    flat_map (fun v =>
      if RegExp.test query.SORT_REGEXP v
      then query.sorts (query.String_ v) allow def else []) l).
  { unfold query.sorts. cbn [query.is_array query.elements].
    induction l as [|v l IH]; [done|]. cbn [map flat_map].
    rewrite filter_cons. cbn [query.as_text].
    destruct (decide (RegExp.test query.SORT_REGEXP v = true)) as [Ht|Ht].
    - rewrite Ht. cbn [map]. rewrite filter_cons. cbn [query.as_text].
      destruct (decide (js.includes allow (query.parse v).1 = true)) as [Hi|Hi].
      + rewrite Hi. cbn. first [by f_equal | exact IH].
      + apply not_true_is_false in Hi. rewrite Hi. cbn. first [by f_equal | exact IH].
    - apply not_true_is_false in Ht. rewrite Ht. cbn. first [by f_equal | exact IH]. }
  split; [done|]. intros Hplain. rewrite H1. clear H1.
  induction l as [|v l IH]; [done|]. cbn [flat_map].
  rewrite IH. f_equal.
  destruct (RegExp.test query.SORT_REGEXP v) eqn:Ht; [done|].
  cbn. destruct (js.includes allow (query.parse v).1) eqn:Hi; [|done].
  apply includes_elem in Hi.
  pose proof (proj1 (Forall_forall _ _) Hplain _ Hi) as Hp.
  by rewrite (sort_regexp_plain v Hp) in Ht.
Qed.

(** X22. Without a string or an array the default is returned: as it is when
    it is a list of sorts, wrapped in an array otherwise.  An empty list
    of sorts has no first element and is wrapped too, so that with a
    default the result is never empty. *)
Theorem sorts_default_is_never_empty (input : query.Input) (allow : list string)
    (d : list query.Item) :
  query.is_array input = false ->
  (forall s, input <> query.String_ s) ->
  query.sorts input allow None = [] /\
  query.sorts input allow (Some d) <> [] /\
  (query.sorts input allow (Some d) = d \/
   query.sorts input allow (Some d) = [query.Arr d]) /\
  query.sorts input allow (Some []) = [query.Arr []].
Proof.
  intros Ha Hs. unfold query.sorts. rewrite Ha.
  destruct input as [|s|l|o|l]; try done; try (by destruct (Hs s)).
  all: destruct d as [|[s|x] d]; repeat split; auto; done.
Qed.

(** ** http *)

Lemma own_absent {A} (o : list (string * A)) (k : string) :
  k ∉ js.keys o -> js.own o k = None.
Proof.
  induction o as [|[k' y] o IH]; cbn; [done|].
  intros [Hne Hk]%not_elem_of_cons.
  destruct (String.eqb k' k) eqn:E; [|by apply IH].
  apply String.eqb_eq in E. by subst.
Qed.

Lemma own_spread {Val} (data : list (string * Val))
    (o : list (string * http.Value Val)) (k : string) :
  NoDup (js.keys data) ->
  js.own (foldl (fun o kv => js.assign o kv.1 (http.Given kv.2)) o data) k =
    match js.own data k with
    | Some v => Some (http.Given v)
    | None => js.own o k
    end.
Proof.
  revert o. induction data as [|[k1 v1] data IH]; intros o Hnd; [done|].
  cbn in Hnd. apply NoDup_cons in Hnd as [Hk1 Hnd].
  cbn [foldl js.own fst snd]. rewrite IH by done.
  destruct (String.eqb k1 k) eqn:E.
  - apply String.eqb_eq in E as ->.
    by rewrite (own_absent data k Hk1), own_assign_eq.
  - destruct (js.own data k); [done|].
    apply own_assign_ne. intros ->. by rewrite String.eqb_refl in E.
Qed.

(** X23. Every handler answers with its own code, then sends a body, then
    calls [next].  The body holds all of [data]; its message is the
    handler's, unless [data] has a message, which then replaces it. *)
Theorem data_overrides_the_message {Val} (data : option (list (string * Val))) :
  NoDup (js.keys (default [] data)) ->
  Forall (fun h =>
    exists body,
      h.1.1 data = [http.status h.1.2; http.json body; http.next] /\
      js.own body "message" =
        Some (match js.own (default [] data) "message" with
              | Some v => http.Given v
              | None => http.Text h.2
              end) /\
      forall k v, js.own (default [] data) k = Some v ->
        js.own body k = Some (http.Given v))
    (@http.handlers Val).
Proof.
  intros Hnd.
  assert (Hw : forall m,
    js.own (http.with_message m data) "message" =
      Some (match js.own (default [] data) "message" with
            | Some v => http.Given v
            | None => http.Text m
            end) /\
    forall k v, js.own (default [] data) k = Some v ->
      js.own (http.with_message m data) k = Some (http.Given v)).
  { intros m. unfold http.with_message. split.
    - rewrite own_spread by done. by destruct (js.own _ _).
    - intros k v Hk. by rewrite own_spread, Hk. }
  unfold http.handlers.
  repeat (constructor; [eexists; split; [reflexivity|apply Hw]|]).
  constructor.
Qed.

(** ** Instances of the statements about run, validate, query and http *)

Lemma ticks_do_not_wait_witness :
  ([hung_job] !! 0 = Some hung_job /\
   truthy (defer hung_job) = None /\
   (forall i, fn_beh (do hung_job) i = Never)) /\
  let w := steps 5 (run [0] (init_world [hung_job])).2 in
  now w = 500 /\
  calls w 0 = 6 /\
  (500, EvTick 1) ∈ log w /\
  (500, EvCall 0 5) ∈ log w /\
  Forall (fun c => p_state c = None) (promises w) /\
  timers w = [{| t_due := 600; t_kind := Every 100; t_active := true;
                 t_fn := Tick 1 0 |}].
Proof.
  assert (Hb : forall i, fn_beh (do hung_job) i = Never) by done.
  split; [exact (conj eq_refl (conj eq_refl Hb))|].
  exact (ticks_do_not_wait [hung_job] 0 hung_job 5 eq_refl eq_refl Hb).
Defined.

Lemma seq_first_decides_witness :
  Forall (fun g => g (sample.Text "xyz") sample.Undef = validate.Void) [validate.str] /\
  validate.seq [validate.str; validate.hex; validate.email]
    (sample.Text "xyz") sample.Undef = validate.Throw "invalid characters".
Proof.
  assert (Hpre : Forall (fun g => g (sample.Text "xyz") sample.Undef = validate.Void)
    [validate.str]) by (by repeat constructor).
  split; [exact Hpre|].
  exact (seq_first_decides [validate.str] [validate.email] validate.hex
           (sample.Text "xyz") sample.Undef Hpre).
Defined.

Lemma optional_ends_its_own_seq_only_witness :
  js.is_nullish sample.Undef = true /\
  validate.seq [validate.optional; validate.str; validate.hex]
    sample.Undef sample.Undef = validate.Void /\
  validate.seq [validate.seq [validate.optional; validate.str]; validate.hex]
    sample.Undef sample.Undef = validate.Throw "must be a string".
Proof.
  split; [reflexivity|].
  exact (optional_ends_its_own_seq_only [validate.str] [validate.hex]
           sample.Undef sample.Undef eq_refl).
Defined.


Lemma validate_reports_the_first_failure_witness :
  (validate.validate (validate.Obj [("name"%string, validate.Fn validate.str)]) ""
     sample.flat_input sample.Undef =
     validate.Return [("name"%string, validate.Leaf (sample.Text "n"))] /\
   validate.hex (js.prop sample.flat_input "extra") sample.flat_input =
     validate.Throw "invalid characters") /\
  validate.validate
    (validate.Obj [("name", validate.Fn validate.str); ("extra", validate.Fn validate.hex);
                   ("note", validate.Fn validate.str)]%string)
    "" sample.flat_input sample.Undef =
    validate.Raise {| validate.param := "extra"; validate.message := "invalid characters" |}.
Proof.
  split; [split; reflexivity|].
  exact (validate_reports_the_first_failure
    [("name"%string, validate.Fn validate.str)]
    [("note"%string, validate.Fn validate.str)] "extra" validate.hex ""
    sample.flat_input sample.Undef _ "invalid characters" eq_refl eq_refl).
Defined.

Lemma validate_names_the_last_two_keys_witness :
  validate.validate sample.deep_spec "" (sample.deep_input "XYZ") sample.Undef =
    validate.Raise {| validate.param := "b.c"; validate.message := "invalid characters" |} /\
  ({| validate.param := "b.c"; validate.message := "invalid characters" |} =
     {| validate.param := ""; validate.message := "no data" |} \/
   "b.c"%string ∈ validate.params sample.deep_spec "").
Proof.
  assert (He : validate.validate sample.deep_spec "" (sample.deep_input "XYZ")
      sample.Undef =
    validate.Raise {| validate.param := "b.c"; validate.message := "invalid characters" |})
    by reflexivity.
  split; [exact He|].
  exact (validate_names_the_last_two_keys sample.deep_spec "" (sample.deep_input "XYZ")
           sample.Undef _ He).
Defined.


Lemma integer_is_clamped_witness :
  ((forall a b : option nat, js.isNaN a = false -> js.isNaN b = false ->
      js.leb a b = false -> js.leb b a = true) /\
   (forall a b c : option nat, js.leb a b = true -> js.leb b c = true ->
      js.leb a c = true) /\
   query.integer (query.Strings ["250"; "7"]%string) (Some (Some 1)) (Some (Some 100)) =
     Some (Some 100)) /\
  js.isNaN (Some 100) = false /\
  js.leb (Some 1) (Some 100) = true /\ js.leb (Some 100) (Some 100) = true.
Proof.
  assert (Htot : forall a b : option nat, js.isNaN a = false -> js.isNaN b = false ->
    js.leb a b = false -> js.leb b a = true).
  { intros [x|] [y|]; cbn; try done. intros _ _ Hxy.
    apply Nat.leb_le. apply Nat.leb_gt in Hxy. lia. }
  assert (Htrans : forall a b c : option nat, js.leb a b = true -> js.leb b c = true ->
    js.leb a c = true).
  { intros [x|] [y|] [z|]; cbn; try done. intros Hxy Hyz.
    apply Nat.leb_le. apply Nat.leb_le in Hxy, Hyz. lia. }
  assert (Hr : query.integer (query.Strings ["250"; "7"]%string) (Some (Some 1))
    (Some (Some 100)) = Some (Some 100)) by reflexivity.
  split; [exact (conj Htot (conj Htrans Hr))|].
  exact (integer_is_clamped (query.Strings ["250"; "7"]%string) (Some 1) (Some 100)
           (Some 100) Htot Htrans eq_refl eq_refl Hr).
Defined.

Lemma sorts_are_allowed_witness :
  query.is_array (query.Strings ["-name"; "zip"]%string) = true /\
  query.sorts (query.Strings ["-name"; "zip"]%string) ["name"; "age"]%string
      (Some [query.Str "age"; query.Str "ASC"]) =
    query.sorts (query.Strings ["-name"; "zip"]%string) ["name"; "age"]%string None.
Proof.
  split; [reflexivity|].
  exact (proj1 (sorts_are_allowed (query.Strings ["-name"; "zip"]%string)
    ["name"; "age"]%string (Some [query.Str "age"; query.Str "ASC"])
    (or_introl eq_refl))).
Defined.

Lemma sorts_of_an_array_witness :
  Forall query.plain ["name"; "age"]%string /\
  query.sorts (query.Strings ["-name"; "zip"; "age"]%string) ["name"; "age"]%string None =
    query.sorts (query.String_ "-name") ["name"; "age"]%string None ++
    query.sorts (query.String_ "zip") ["name"; "age"]%string None ++
    query.sorts (query.String_ "age") ["name"; "age"]%string None.
Proof.
  assert (Hp : Forall query.plain ["name"; "age"]%string).
  { repeat constructor; try done; cbn; repeat constructor. }
  split; [exact Hp|].
  pose proof (proj2 (sorts_of_an_array ["-name"; "zip"; "age"]%string
    ["name"; "age"]%string None) Hp) as H.
  cbn [flat_map] in H. rewrite app_nil_r in H. exact H.
Defined.

Lemma sorts_default_is_never_empty_witness :
  (query.is_array query.Undefined = false /\
   forall s, query.Undefined <> query.String_ s) /\
  query.sorts query.Undefined ["name"]%string None = [] /\
  query.sorts query.Undefined ["name"]%string (Some []) = [query.Arr []].
Proof.
  assert (Hs : forall s, query.Undefined <> query.String_ s) by done.
  split; [exact (conj eq_refl Hs)|].
  pose proof (sorts_default_is_never_empty query.Undefined ["name"]%string []
    eq_refl Hs) as (H1 & _ & _ & H4).
  exact (conj H1 H4).
Defined.

Lemma data_overrides_the_message_witness :
  NoDup (js.keys (default []
    (Some [("reason", sample.Text "r"); ("message", sample.Text "gone")]%string))) /\
  Forall (fun h =>
    exists body,
      h.1.1 (Some [("reason", sample.Text "r"); ("message", sample.Text "gone")]%string) =
        [http.status h.1.2; http.json body; http.next] /\
      js.own body "message" = Some (http.Given (sample.Text "gone")) /\
      forall k v,
        js.own [("reason", sample.Text "r"); ("message", sample.Text "gone")]%string k =
          Some v ->
        js.own body k = Some (http.Given v))
    (@http.handlers sample.Value).
Proof.
  assert (Hnd : NoDup (js.keys (default []
    (Some [("reason", sample.Text "r"); ("message", sample.Text "gone")]%string))))
    by (cbn; apply (bool_decide_unpack _); vm_compute; exact I).
  split; [exact Hnd|].
  exact (data_overrides_the_message
    (Some [("reason", sample.Text "r"); ("message", sample.Text "gone")]%string) Hnd).
Defined.
